(** * Localization-file patch scripts: the deep merge and the lenient loader

    A shallow embedding of the merge helpers and of the JSON recovery chain
    of the translation scripts:

    - [fix_ka_translation.deep_update]  (fix_ka_translation.py, lines 132-139)
    - [rehydrate_ka.deep_update]        (rehydrate_ka.py, lines 221-227; the
      same text is the local helper of update_ka_profile_btn.py)
    - [rehydrate_ka.load_lenient]       (rehydrate_ka.py, lines 96-138)
    - [update_translations.update_json_file]
                                        (update_translations.py, lines 4-21)

    Python values are modelled as these scripts use them: a [str] is a
    sequence of code points; a [dict] is an association list in insertion
    order whose keys are pairwise different ([wf_tree]), since the order of a
    dict is the order of [items()] and of the file [json.dump] writes; every
    operation that Python may refuse returns a [result], which keeps the
    exception.  Equality of trees below is equality of these lists, which
    implies the [==] of Python.  The data model is the one of the spec
    (section 3): a tree is a text leaf or a dict; numbers, arrays, booleans
    and [null], which [deep_update] treats as it treats a text leaf, are not
    modelled.

    The recursive functions are given twice.  [deep_update] is the function
    on an interpreter that has frames to spare; [deep_update_within] is the
    same text under the recursion limit of the interpreter, where a call
    that finds no frame left raises [RecursionError].  The number of calls
    the interpreter still accepts is a parameter, [frames]: its value in a
    run depends on [sys.getrecursionlimit()], on the frames in use at the
    call and on the interpreter (CPython before 3.12 counts the builtin
    methods a call runs, [items] and [get], against the same limit while
    they run).  [deep_update_within] returns what [deep_update] returns
    whenever it returns ([fix_within_sound], [rehydrate_within_sound]), so
    what is proved of a successful [deep_update] holds of every run of the
    script that gets through its merge; when the merge gets through is
    stated of [deep_update_within] (claim C2). *)

From Stdlib Require Import List NArith ZArith Bool String Ascii Lia.
Import ListNotations.

(** ** Python strings *)

(** A code point. [count], slicing and [re.sub] of the scripts all work on
    code points, not on bytes. *)
Definition char : Type := N.

Definition str : Type := list char.

Fixpoint str_eqb (a b : str) : bool :=
  match a, b with
  | [], [] => true
  | x :: a', y :: b' => N.eqb x y && str_eqb a' b'
  | _, _ => false
  end.

(** A literal of the development as a Python string (ASCII only). *)
Fixpoint py (s : string) : str :=
  match s with
  | EmptyString => []
  | String a s' => N_of_ascii a :: py s'
  end.

Definition dquote : char := 34%N.
Definition apostrophe : char := 39%N.

(** JSON texts of the examples are written with an apostrophe wherever the
    text has a double quote: [text "{'a': 'b'}"] is the text
    [{ dquote a dquote : dquote b dquote }]. *)
Definition text (s : string) : str :=
  map (fun c => if N.eqb c apostrophe then dquote else c) (py s).

(** [needle in haystack] on two strings: the substring test. *)
Fixpoint str_startswith (s prefix : str) : bool :=
  match prefix, s with
  | [], _ => true
  | p :: prefix', c :: s' => N.eqb p c && str_startswith s' prefix'
  | _ :: _, [] => false
  end.

Fixpoint str_contains (haystack needle : str) : bool :=
  str_startswith haystack needle ||
  match haystack with
  | [] => false
  | _ :: rest => str_contains rest needle
  end.

(** ** Trees *)

(** The values the scripts merge: a text leaf or a [dict] from text keys to
    values (spec section 3).  The items of a node are in insertion order, as
    [dict.items()] yields them and as [json.dump] writes them. *)
Unset Elimination Schemes.

Inductive Tree : Type :=
| Leaf (s : str)
| Node (items : list (str * Tree)).

Set Elimination Schemes.

Definition dict : Type := list (str * Tree).

(** Keys of a Python dict are pairwise different, at every level. *)
Fixpoint nodup_keys (ks : list str) : bool :=
  match ks with
  | [] => true
  | k :: ks' => negb (existsb (str_eqb k) ks') && nodup_keys ks'
  end.

Fixpoint wf_tree (t : Tree) : bool :=
  match t with
  | Leaf _ => true
  | Node items =>
      nodup_keys (map fst items) &&
      forallb (fun kv : str * Tree => let (_, v) := kv in wf_tree v) items
  end.

(** [isinstance(v, dict)] and the truth value of a tree ([bool(v)]): an empty
    dict and an empty string are false. *)
Definition isinstance_dict (v : Tree) : bool :=
  match v with
  | Node _ => true
  | Leaf _ => false
  end.

Definition truthy (v : Tree) : bool :=
  match v with
  | Node [] => false
  | Node (_ :: _) => true
  | Leaf [] => false
  | Leaf (_ :: _) => true
  end.

(** ** Dict primitives on association lists *)

Fixpoint dict_get (m : dict) (k : str) : option Tree :=
  match m with
  | [] => None
  | (k', v) :: m' => if str_eqb k' k then Some v else dict_get m' k
  end.

(** [m[k] = v]: an existing key keeps its place, a new key goes last. *)
Fixpoint dict_set (m : dict) (k : str) (v : Tree) : dict :=
  match m with
  | [] => [(k, v)]
  | (k', v') :: m' =>
      if str_eqb k' k then (k', v) :: m' else (k', v') :: dict_set m' k v
  end.

Definition keys (m : dict) : list str := map fst m.

(** ** Exceptions and results *)

Inductive exn : Type :=
| AttributeError
| TypeError
| KeyError
| JSONDecodeError
| RecursionError.

Inductive result (A : Type) : Type :=
| Ok (a : A)
| Raise (e : exn).

Arguments Ok {A} a.
Arguments Raise {A} e.

Definition bind {A B : Type} (r : result A) (f : A -> result B) : result B :=
  match r with
  | Ok a => f a
  | Raise e => Raise e
  end.

Notation "x <- c ;; k" := (bind c (fun x => k))
  (at level 61, c at next level, right associativity).

(** A [for] loop over a list whose body may raise: the state is threaded
    through, the first exception leaves the loop. *)
Section ForEach.

Variables (S X : Type) (body : S -> X -> result S).

Fixpoint for_each (xs : list X) (s : S) : result S :=
  match xs with
  | [] => Ok s
  | x :: xs' => s' <- body s x ;; for_each xs' s'
  end.

End ForEach.

Arguments for_each {S X} body xs s.

(** ** Python operations on a tree value *)

(** [t.items()]: a [str] has no such attribute. *)
Definition py_items (t : Tree) : result dict :=
  match t with
  | Node items => Ok items
  | Leaf _ => Raise AttributeError
  end.

(** [t.get(k, default)] *)
Definition py_get (t : Tree) (k : str) (default : Tree) : result Tree :=
  match t with
  | Node m =>
      match dict_get m k with
      | Some v => Ok v
      | None => Ok default
      end
  | Leaf _ => Raise AttributeError
  end.

(** [t[k]] with a text key: [KeyError] on a dict without the key, [TypeError]
    on a string (string indices must be integers). *)
Definition py_getitem (t : Tree) (k : str) : result Tree :=
  match t with
  | Node m =>
      match dict_get m k with
      | Some v => Ok v
      | None => Raise KeyError
      end
  | Leaf _ => Raise TypeError
  end.

(** [t[k] = v]: a [str] does not support item assignment. *)
Definition py_setitem (t : Tree) (k : str) (v : Tree) : result Tree :=
  match t with
  | Node m => Ok (Node (dict_set m k v))
  | Leaf _ => Raise TypeError
  end.

(** [k in t]: key membership on a dict, the substring test on a string. *)
Definition py_contains (t : Tree) (k : str) : bool :=
  match t with
  | Node m =>
      match dict_get m k with
      | Some _ => true
      | None => false
      end
  | Leaf s => str_contains s k
  end.

(** Reading a key of a tree, [None] where Python has nothing to read. *)
Definition tree_lookup (t : Tree) (k : str) : option Tree :=
  match t with
  | Node m => dict_get m k
  | Leaf _ => None
  end.

(** The value at the end of a path of keys. *)
Fixpoint lookup_path (t : Tree) (p : list str) : option Tree :=
  match p with
  | [] => Some t
  | k :: p' =>
      match tree_lookup t k with
      | Some t' => lookup_path t' p'
      | None => None
      end
  end.

(** ** The JSON parser *)

Module Import json.

(** *** The parser the scripts call

    [json.loads] belongs to the Python library, not to the scripts.  The
    loader below takes it as a parameter; [loads] is a reference parser for
    the fragment of JSON that the data model covers (objects and strings),
    written after the library decoder ([JSONObject], [py_scanstring],
    [JSONDecoder.decode]) and used to run the loader on sample texts.  On a
    text that holds another kind of value (a number, an array, [true],
    [false], [null]) the library answers with a value outside [Tree]; such
    texts are outside the fragment and [loads] refuses them. *)

Definition lbrace : char := 123%N.
Definition rbrace : char := 125%N.
Definition rbracket : char := 93%N.
Definition comma : char := 44%N.
Definition colon : char := 58%N.
Definition backslash : char := 92%N.

(** The whitespace of the decoder: space, tab, line feed, carriage return. *)
Definition is_json_ws (c : char) : bool :=
  N.eqb c 32 || N.eqb c 9 || N.eqb c 10 || N.eqb c 13.

Fixpoint skip_ws (s : str) : str :=
  match s with
  | [] => []
  | c :: s' => if is_json_ws c then skip_ws s' else s
  end.

Definition hex_digit (c : char) : option N :=
  if N.leb 48 c && N.leb c 57 then Some (c - 48)%N
  else if N.leb 65 c && N.leb c 70 then Some (c - 55)%N
  else if N.leb 97 c && N.leb c 102 then Some (c - 87)%N
  else None.

Definition decode_uXXXX (s : str) : option (N * str) :=
  match s with
  | a :: b :: c :: d :: rest =>
      match hex_digit a, hex_digit b, hex_digit c, hex_digit d with
      | Some x, Some y, Some z, Some w =>
          Some ((((x * 16 + y) * 16 + z) * 16 + w)%N, rest)
      | _, _, _, _ => None
      end
  | _ => None
  end.

(** The two-character escapes: quote, backslash, slash, b, f, n, r, t. *)
Definition simple_escape (e : char) : option char :=
  if N.eqb e 34 then Some 34%N
  else if N.eqb e 92 then Some 92%N
  else if N.eqb e 47 then Some 47%N
  else if N.eqb e 98 then Some 8%N
  else if N.eqb e 102 then Some 12%N
  else if N.eqb e 110 then Some 10%N
  else if N.eqb e 114 then Some 13%N
  else if N.eqb e 116 then Some 9%N
  else None.

Definition option_cons (c : char) (r : option (str * str)) : option (str * str) :=
  match r with
  | Some (v, rest) => Some (c :: v, rest)
  | None => None
  end.

(** The body of a string, from just after its opening quote, in strict mode:
    the decoded text and what follows the closing quote. *)
Fixpoint scanstring (fuel : nat) (s : str) : option (str * str) :=
  match fuel with
  | O => None
  | S fuel' =>
      match s with
      | [] => None
      | c :: s1 =>
          if N.eqb c dquote then Some ([], s1)
          else if N.eqb c backslash then
            match s1 with
            | [] => None
            | e :: s2 =>
                if N.eqb e 117 then
                  match decode_uXXXX s2 with
                  | None => None
                  | Some (uni, s3) =>
                      if N.leb 55296 uni && N.leb uni 56319
                         && str_startswith s3 [backslash; 117%N] then
                        match decode_uXXXX (skipn 2 s3) with
                        | None => None
                        | Some (uni2, s5) =>
                            if N.leb 56320 uni2 && N.leb uni2 57343 then
                              option_cons
                                (65536 + ((uni - 55296) * 1024 + (uni2 - 56320)))%N
                                (scanstring fuel' s5)
                            else option_cons uni (scanstring fuel' s3)
                        end
                      else option_cons uni (scanstring fuel' s3)
                  end
                else
                  match simple_escape e with
                  | Some ch => option_cons ch (scanstring fuel' s2)
                  | None => None
                  end
            end
          else if N.ltb c 32 then None
          else option_cons c (scanstring fuel' s1)
      end
  end.

(** [parse_value] reads one value at the head of the text; [parse_members]
    reads the members of an object from just after the opening quote of a
    key.  A repeated key keeps its first place and its last value, as
    [dict(pairs)] does. *)
Fixpoint parse_value (fuel : nat) (s : str) : option (Tree * str) :=
  match fuel with
  | O => None
  | S fuel' =>
      match s with
      | [] => None
      | c :: s1 =>
          if N.eqb c dquote then
            match scanstring (List.length s1) s1 with
            | Some (v, rest) => Some (Leaf v, rest)
            | None => None
            end
          else if N.eqb c lbrace then
            match skip_ws s1 with
            | [] => None
            | c2 :: s3 =>
                if N.eqb c2 rbrace then Some (Node [], s3)
                else if N.eqb c2 dquote then parse_members fuel' s3 []
                else None
            end
          else None
      end
  end
with parse_members (fuel : nat) (s : str) (pairs : dict) : option (Tree * str) :=
  match fuel with
  | O => None
  | S fuel' =>
      match scanstring (List.length s) s with
      | None => None
      | Some (key, s1) =>
          match skip_ws s1 with
          | [] => None
          | c :: s2 =>
              if N.eqb c colon then
                match parse_value fuel' (skip_ws s2) with
                | None => None
                | Some (value, s3) =>
                    let pairs' := dict_set pairs key value in
                    match skip_ws s3 with
                    | [] => None
                    | c2 :: s4 =>
                        if N.eqb c2 rbrace then Some (Node pairs', s4)
                        else if N.eqb c2 comma then
                          match skip_ws s4 with
                          | [] => None
                          | c3 :: s5 =>
                              if N.eqb c3 dquote
                              then parse_members fuel' s5 pairs'
                              else None
                          end
                        else None
                    end
                end
              else None
          end
      end
  end.

(** [json.loads(s)] on the fragment: leading whitespace, one value, trailing
    whitespace, nothing else; any other text is a [JSONDecodeError]. *)
Definition loads (s : str) : result Tree :=
  match parse_value (S (List.length s)) (skip_ws s) with
  | Some (t, rest) =>
      match skip_ws rest with
      | [] => Ok t
      | _ :: _ => Raise JSONDecodeError
      end
  | None => Raise JSONDecodeError
  end.

(** *** The recursion limit of the decoder

    The library decoder calls itself for every object inside an object and
    raises [RecursionError], which is not a [JSONDecodeError], when the
    objects of the text are nested deeper than the interpreter allows, also
    on a text that is a JSON document.  [parse_value_within] is
    [parse_value] with this test: [depth] is the number of nested objects
    the decoder may still enter.  A string takes no level. *)
Fixpoint parse_value_within (depth fuel : nat) (s : str) : result (Tree * str) :=
  match fuel with
  | O => Raise JSONDecodeError
  | S fuel' =>
      match s with
      | [] => Raise JSONDecodeError
      | c :: s1 =>
          if N.eqb c dquote then
            match scanstring (List.length s1) s1 with
            | Some (v, rest) => Ok (Leaf v, rest)
            | None => Raise JSONDecodeError
            end
          else if N.eqb c lbrace then
            match depth with
            | O => Raise RecursionError
            | S depth' =>
                match skip_ws s1 with
                | [] => Raise JSONDecodeError
                | c2 :: s3 =>
                    if N.eqb c2 rbrace then Ok (Node [], s3)
                    else if N.eqb c2 dquote
                    then parse_members_within depth' fuel' s3 []
                    else Raise JSONDecodeError
                end
            end
          else Raise JSONDecodeError
      end
  end
with parse_members_within (depth fuel : nat) (s : str) (pairs : dict)
  : result (Tree * str) :=
  match fuel with
  | O => Raise JSONDecodeError
  | S fuel' =>
      match scanstring (List.length s) s with
      | None => Raise JSONDecodeError
      | Some (key, s1) =>
          match skip_ws s1 with
          | [] => Raise JSONDecodeError
          | c :: s2 =>
              if N.eqb c colon then
                match parse_value_within depth fuel' (skip_ws s2) with
                | Raise e => Raise e
                | Ok (value, s3) =>
                    let pairs' := dict_set pairs key value in
                    match skip_ws s3 with
                    | [] => Raise JSONDecodeError
                    | c2 :: s4 =>
                        if N.eqb c2 rbrace then Ok (Node pairs', s4)
                        else if N.eqb c2 comma then
                          match skip_ws s4 with
                          | [] => Raise JSONDecodeError
                          | c3 :: s5 =>
                              if N.eqb c3 dquote
                              then parse_members_within depth fuel' s5 pairs'
                              else Raise JSONDecodeError
                          end
                        else Raise JSONDecodeError
                    end
                end
              else Raise JSONDecodeError
          end
      end
  end.

(** [json.loads(s)] on an interpreter that lets the decoder enter [depth]
    nested objects. *)
Definition loads_within (depth : nat) (s : str) : result Tree :=
  match parse_value_within depth (S (List.length s)) (skip_ws s) with
  | Ok (t, rest) =>
      match skip_ws rest with
      | [] => Ok t
      | _ :: _ => Raise JSONDecodeError
      end
  | Raise e => Raise e
  end.

End json.

(** ** Text operations of the recovery chain *)

(** [s.count(c)] for a one-character [c]. *)
Fixpoint str_count (s : str) (c : char) : Z :=
  match s with
  | [] => 0%Z
  | x :: s' => ((if N.eqb x c then 1 else 0) + str_count s' c)%Z
  end.

(** [s[:stop]]: a negative [stop] counts from the end, and the bound is
    clamped to the string. *)
Definition slice_to (s : str) (stop : Z) : str :=
  let n := Z.of_nat (List.length s) in
  let stop' := if (stop <? 0)%Z then Z.max 0 (n + stop) else stop in
  firstn (Z.to_nat stop') s.

(** [c * n]: no character when [n] is not positive. *)
Definition str_repeat (c : char) (n : Z) : str := repeat c (Z.to_nat n).

(** The class [\s] of [re] on a [str] pattern: the Unicode whitespace. *)
Definition re_space (c : char) : bool :=
  (N.leb 9 c && N.leb c 13) || (N.leb 28 c && N.leb c 32)
  || N.eqb c 133 || N.eqb c 160 || N.eqb c 5760
  || (N.leb 8192 c && N.leb c 8202)
  || N.eqb c 8232 || N.eqb c 8233 || N.eqb c 8239 || N.eqb c 8287
  || N.eqb c 12288.

(** The lookahead [(?=\s*X)] at the head of [s], [X] one character that is
    not whitespace. *)
Fixpoint re_lookahead_spaces_then (closer : char) (s : str) : bool :=
  match s with
  | [] => false
  | c :: s' =>
      if N.eqb c closer then true
      else if re_space c then re_lookahead_spaces_then closer s'
      else false
  end.

(** [re.sub(r',(?=\s*X)', '', s)]: every comma that whitespace and then [X]
    follow is removed.  The lookahead consumes nothing, so every comma of
    [s] is tested against the original text. *)
Fixpoint re_sub_comma_before (closer : char) (s : str) : str :=
  match s with
  | [] => []
  | c :: s' =>
      if N.eqb c comma && re_lookahead_spaces_then closer s'
      then re_sub_comma_before closer s'
      else c :: re_sub_comma_before closer s'
  end.

(** ** fix_ka_translation.py *)

Module fix_ka_translation.

(** [deep_update(source, overrides)], lines 132-139.  The base is mutated in
    place and returned; an exception leaves the script (the call of line 142
    is not inside a [try]), so the model returns either the final base or
    the exception.  The base is the tree [json.loads] built and the
    overrides are a literal, so at the call they share no object; the
    objects of the overrides that the overwrite branch stores into the base
    are strings and empty dicts, which a merge of the same overrides never
    changes.  Values can therefore stand for objects.  The recursion limit
    of the interpreter is left out here: this is the function with frames to
    spare, [deep_update_within] below is the function under the limit. *)
Fixpoint deep_update (source overrides : Tree) {struct overrides} : result Tree :=
  match overrides with
  | Leaf _ => Raise AttributeError
  | Node items =>
      for_each
        (fun (source : Tree) (kv : str * Tree) =>
           let (key, value) := kv in
           if isinstance_dict value && truthy value then
             sub <- py_get source key (Node []) ;;
             returned <- deep_update sub value ;;
             py_setitem source key returned
           else
             v <- py_getitem overrides key ;;
             py_setitem source key v)
        items source
  end.

(** [deep_update(source, overrides)] under the recursion limit.  Every call
    of the function takes one frame of the interpreter's stack, the call of
    line 136 inside the call that makes it; [frames] is the number of calls
    of the function that the interpreter still lets in at the call.  A call
    that finds none raises [RecursionError] before it changes anything, and
    the exception leaves every call on the stack and the script. *)
Fixpoint deep_update_within (frames : nat) (source overrides : Tree)
  {struct frames} : result Tree :=
  match frames with
  | O => Raise RecursionError
  | S frames' =>
      match overrides with
      | Leaf _ => Raise AttributeError
      | Node items =>
          for_each
            (fun (source : Tree) (kv : str * Tree) =>
               let (key, value) := kv in
               if isinstance_dict value && truthy value then
                 sub <- py_get source key (Node []) ;;
                 returned <- deep_update_within frames' sub value ;;
                 py_setitem source key returned
               else
                 v <- py_getitem overrides key ;;
                 py_setitem source key v)
            items source
      end
  end.

End fix_ka_translation.

(** ** rehydrate_ka.py *)

Module rehydrate_ka.

(** Lines 96-107: the count of braces is evened out before any parse. *)
Definition fix_braces (ka_content : str) : str :=
  let open_braces := str_count ka_content lbrace in
  let close_braces := str_count ka_content rbrace in
  let diff := (open_braces - close_braces)%Z in
  if (0 <? diff)%Z then ka_content ++ str_repeat rbrace diff
  else if (diff <? 0)%Z then slice_to ka_content diff
  else ka_content.

(** Lines 118-119. *)
Definition strip_trailing_commas (fixed_content : str) : str :=
  re_sub_comma_before rbracket (re_sub_comma_before rbrace fixed_content).

Section Loader.

(** [json.loads], the parser of the Python library. *)
Variable json_loads : str -> result Tree.

(** Lines 96-138, the value of [ka_data] after the recovery chain, from the
    text of the file ([ka_content]) and the tree of the English file
    ([en_data], the fallback).  The first handler catches
    [json.JSONDecodeError] only, any other exception of the first parse
    leaves the script; the second handler is a bare [except].  After the
    chain [ka_data] is always bound, so the test of line 137 changes
    nothing. *)
Definition load_lenient (ka_content : str) (en_data : Tree) : result Tree :=
  let fixed_content := fix_braces ka_content in
  match json_loads fixed_content with
  | Ok ka_data => Ok ka_data
  | Raise JSONDecodeError =>
      let fixed_content := strip_trailing_commas fixed_content in
      match json_loads fixed_content with
      | Ok ka_data => Ok ka_data
      | Raise _ => Ok en_data
      end
  | Raise e => Raise e
  end.

End Loader.

(** [deep_update(d, u)], lines 221-227: every dict of the overrides is
    merged, also an empty one.  As for fix_ka_translation.py, this is the
    function with frames to spare. *)
Fixpoint deep_update (d u : Tree) {struct u} : result Tree :=
  match u with
  | Leaf _ => Raise AttributeError
  | Node items =>
      for_each
        (fun (d : Tree) (kv : str * Tree) =>
           let (k, v) := kv in
           if isinstance_dict v then
             sub <- py_get d k (Node []) ;;
             returned <- deep_update sub v ;;
             py_setitem d k returned
           else
             py_setitem d k v)
        items d
  end.

(** [deep_update(d, u)] under the recursion limit: [frames] is the number of
    calls of the function that the interpreter still lets in; the call of
    line 224 runs with one less. *)
Fixpoint deep_update_within (frames : nat) (d u : Tree) {struct frames}
  : result Tree :=
  match frames with
  | O => Raise RecursionError
  | S frames' =>
      match u with
      | Leaf _ => Raise AttributeError
      | Node items =>
          for_each
            (fun (d : Tree) (kv : str * Tree) =>
               let (k, v) := kv in
               if isinstance_dict v then
                 sub <- py_get d k (Node []) ;;
                 returned <- deep_update_within frames' sub v ;;
                 py_setitem d k returned
               else
                 py_setitem d k v)
            items d
      end
  end.

End rehydrate_ka.

(** ** update_translations.py *)

Module update_translations.

(** The merge of [update_json_file], lines 9-17: [data] is what [json.load]
    read from the file, the result is what [json.dump] writes back.
    [data[key][sub_key] = sub_value] changes in place the object bound to
    [key], which keeps its place in [data]. *)
Definition update_json_file (data new_data : Tree) : result Tree :=
  items <- py_items new_data ;;
  for_each
    (fun (data : Tree) (kv : str * Tree) =>
       let (key, value) := kv in
       if py_contains data key then
         if isinstance_dict value then
           sub_items <- py_items value ;;
           for_each
             (fun (data : Tree) (skv : str * Tree) =>
                let (sub_key, sub_value) := skv in
                inner <- py_getitem data key ;;
                inner' <- py_setitem inner sub_key sub_value ;;
                py_setitem data key inner')
             sub_items data
         else py_setitem data key value
       else py_setitem data key value)
    items data.

End update_translations.

(** ** fix_ka_translation.py, the script around [deep_update] *)

(** The line boundaries of [str.splitlines]: line feed, carriage return (a
    carriage return and the line feed after it are one boundary), vertical
    tab, form feed, the three separators 28-30, next line, and the line and
    paragraph separators. *)
Definition is_linebreak (c : char) : bool :=
  (N.leb 10 c && N.leb c 13) || (N.leb 28 c && N.leb c 30)
  || N.eqb c 133 || N.eqb c 8232 || N.eqb c 8233.

(** [s.splitlines()], [cur] being the line read so far: the boundaries are
    dropped, and a text that ends at a boundary has no empty last line. *)
Fixpoint splitlines_from (cur : str) (s : str) : list str :=
  match s with
  | [] =>
      match cur with
      | [] => []
      | _ :: _ => [cur]
      end
  | c :: s' =>
      if N.eqb c 13 then
        match s' with
        | c2 :: s'' =>
            if N.eqb c2 10 then cur :: splitlines_from [] s''
            else cur :: splitlines_from [] s'
        | [] => cur :: splitlines_from [] s'
        end
      else if is_linebreak c then cur :: splitlines_from [] s'
      else splitlines_from (cur ++ [c]) s'
  end.

Definition splitlines (s : str) : list str := splitlines_from [] s.

(** [sep.join(parts)] *)
Fixpoint str_join (sep : str) (parts : list str) : str :=
  match parts with
  | [] => []
  | p :: rest =>
      match rest with
      | [] => p
      | _ :: _ => p ++ sep ++ str_join sep rest
      end
  end.

(** [s.rfind(c)] for a one-character [c]: the last index of [c], or -1. *)
Fixpoint str_rfind_from (s : str) (c : char) (i found : Z) : Z :=
  match s with
  | [] => found
  | x :: s' => str_rfind_from s' c (i + 1) (if N.eqb x c then i else found)
  end.

Definition str_rfind (s : str) (c : char) : Z := str_rfind_from s c 0 (-1).

Module fix_ka_translation_script.

(** The text of the test of line 22: the key [remove] and its Georgian
    value, in code points. *)
Definition remove_line : str :=
  text "'remove': '" ++ [4304; 4315; 4317; 4326; 4308; 4305; 4304]%N ++ [dquote].

(** Lines 18-27: the lines of the file are copied one by one (the test of
    line 22 guards a [pass]) and joined again with line feeds. *)
Definition clean (content : str) : str :=
  let lines := splitlines content in
  let cleaned_lines :=
    fold_left
      (fun (cleaned_lines : list str) (line : str) =>
         let cleaned_lines :=
           if str_contains line remove_line
              && negb (str_contains line (py "},"))
           then cleaned_lines
           else cleaned_lines in
         cleaned_lines ++ [line])
      lines [] in
  str_join [10%N] cleaned_lines.

Section Script.

(** [json.loads], and the table [new_translations] of lines 53-130. *)
Variable json_loads : str -> result Tree.
Variable new_translations : Tree.

(** Lines 13-50: [Some data] when [data] is bound after the two attempts,
    [None] when it is not.  The first handler catches
    [json.JSONDecodeError] only; the second is a bare [except] around a
    [pass]. *)
Definition load (content : str) : result (option Tree) :=
  let content := clean content in
  match json_loads content with
  | Ok data => Ok (Some data)
  | Raise JSONDecodeError =>
      let content :=
        if (str_rfind content rbrace <? Z.of_nat (List.length content) - 5)%Z
        then content ++ [rbrace]
        else content in
      match json_loads content with
      | Ok data => Ok (Some data)
      | Raise _ => Ok None
      end
  | Raise e => Raise e
  end.

(** Lines 13-152 without the backup: the tree [json.dump] writes to the
    file, or [None] when the script leaves the file as it is. *)
Definition main (content : str) : result (option Tree) :=
  loaded <- load content ;;
  match loaded with
  | Some data =>
      data <- fix_ka_translation.deep_update data new_translations ;;
      Ok (Some data)
  | None => Ok None
  end.

End Script.

End fix_ka_translation_script.

(** A text whose only line boundaries are line feeds. *)
Definition only_line_feeds (s : str) : bool :=
  forallb (fun c => negb (is_linebreak c) || N.eqb c 10) s.

(** ** rehydrate_ka.py, the walk of step 4 *)

(** [translate_structure(node)] of rehydrate_ka.py, lines 51-88: a dict is
    rebuilt key by key from the translated values, a text is returned as it
    is.  The table [translation_map] is not read.  The function calls itself
    on every value of a dict, texts included, and every call takes a frame:
    [frames] is the number of calls the interpreter still lets in, and a
    call that finds none raises [RecursionError]. *)
Fixpoint translate_structure (frames : nat) (node : Tree) {struct frames}
  : result Tree :=
  match frames with
  | O => Raise RecursionError
  | S frames' =>
      match node with
      | Node items =>
          new_node <-
            for_each
              (fun (new_node : dict) (kv : str * Tree) =>
                 let (k, v) := kv in
                 x <- translate_structure frames' v ;;
                 Ok (dict_set new_node k x))
              items [] ;;
          Ok (Node new_node)
      | Leaf s => Ok (Leaf s)
      end
  end.

(** ** update_translations_2.py *)

Module update_translations_2.

(** The merge of [update_json_file], lines 8-13, between [json.load] and
    [json.dump]: only the section [auction] of the new data is read. *)
Definition update_json_file (data new_data : Tree) : result Tree :=
  if py_contains new_data (py "auction") then
    data <-
      (if negb (py_contains data (py "auction"))
       then py_setitem data (py "auction") (Node [])
       else Ok data) ;;
    table <- py_getitem new_data (py "auction") ;;
    items <- py_items table ;;
    for_each
      (fun (data : Tree) (kv : str * Tree) =>
         let (key, value) := kv in
         inner <- py_getitem data (py "auction") ;;
         inner' <- py_setitem inner key value ;;
         py_setitem data (py "auction") inner')
      items data
  else Ok data.

End update_translations_2.

(** ** update_translations_3.py *)

Module update_translations_3.

(** Lines 34-41 for the section [common] and lines 43-50 for the section
    [auction] are one text: the section is created when the file has none,
    then every key of the table that the section does not have is added.
    The messages printed are left out. *)
Definition add_missing (section : str) (data new_keys : Tree) : result Tree :=
  data <-
    (if negb (py_contains data section)
     then py_setitem data section (Node [])
     else Ok data) ;;
  table <- py_getitem new_keys section ;;
  items <- py_items table ;;
  for_each
    (fun (data : Tree) (kv : str * Tree) =>
       let (key, value) := kv in
       inner <- py_getitem data section ;;
       if negb (py_contains inner key) then
         inner' <- py_setitem inner key value ;;
         py_setitem data section inner'
       else Ok data)
    items data.

(** The body of the loop over the languages, lines 26-51, from the tree of
    the file to the tree [json.dump] writes. *)
Definition update_translations (data new_keys : Tree) : result Tree :=
  data <- add_missing (py "common") data new_keys ;;
  add_missing (py "auction") data new_keys.

End update_translations_3.

(** The keys of [items] that [b] does not have, added to [b] in order. *)
Definition add_missing_keys (items b : dict) : dict :=
  fold_left
    (fun (b : dict) (kv : str * Tree) =>
       match dict_get b (fst kv) with
       | Some _ => b
       | None => dict_set b (fst kv) (snd kv)
       end)
    items b.

(** The section [s] of a dict, empty when the dict has none. *)
Definition section_of (d : dict) (s : str) : dict :=
  match dict_get d s with
  | Some (Node b) => b
  | _ => []
  end.

(** The dict has no text where a section is expected. *)
Definition section_ok (d : dict) (s : str) : bool :=
  match dict_get d s with
  | Some (Leaf _) => false
  | _ => true
  end.

(** ** update_translations_vehicle.py *)

Module update_translations_vehicle.

(** The body of the loop over the languages, lines 307-337, from the tree
    of the file to the tree [json.dump] writes.  Every assignment through a
    chain of subscripts reads the chain from [data] again and changes the
    dict at its end in place. *)
Definition update_translations (data new_keys : Tree) : result Tree :=
  data <-
    (if negb (py_contains data (py "common"))
     then py_setitem data (py "common") (Node [])
     else Ok data) ;;
  table <- py_getitem new_keys (py "common") ;;
  items <- py_items table ;;
  data <-
    for_each
      (fun (data : Tree) (kv : str * Tree) =>
         let (key, value) := kv in
         inner <- py_getitem data (py "common") ;;
         inner' <- py_setitem inner key value ;;
         py_setitem data (py "common") inner')
      items data ;;
  data <-
    (if negb (py_contains data (py "vehicle_details"))
     then py_setitem data (py "vehicle_details") (Node [])
     else Ok data) ;;
  table <- py_getitem new_keys (py "vehicle_details") ;;
  sections <- py_items table ;;
  for_each
    (fun (data : Tree) (sc : str * Tree) =>
       let (section, content) := sc in
       details <- py_getitem data (py "vehicle_details") ;;
       if negb (py_contains details section) then
         details' <- py_setitem details section content ;;
         py_setitem data (py "vehicle_details") details'
       else
         items <- py_items content ;;
         for_each
           (fun (data : Tree) (kv : str * Tree) =>
              let (key, value) := kv in
              if isinstance_dict value then
                details <- py_getitem data (py "vehicle_details") ;;
                sec <- py_getitem details section ;;
                if negb (py_contains sec key) then
                  sec' <- py_setitem sec key value ;;
                  details' <- py_setitem details section sec' ;;
                  py_setitem data (py "vehicle_details") details'
                else
                  sub <- py_items value ;;
                  for_each
                    (fun (data : Tree) (skv : str * Tree) =>
                       let (k, v) := skv in
                       details <- py_getitem data (py "vehicle_details") ;;
                       sec <- py_getitem details section ;;
                       inner <- py_getitem sec key ;;
                       inner' <- py_setitem inner k v ;;
                       sec' <- py_setitem sec key inner' ;;
                       details' <- py_setitem details section sec' ;;
                       py_setitem data (py "vehicle_details") details')
                    sub data
              else
                details <- py_getitem data (py "vehicle_details") ;;
                sec <- py_getitem details section ;;
                sec' <- py_setitem sec key value ;;
                details' <- py_setitem details section sec' ;;
                py_setitem data (py "vehicle_details") details')
           items data)
    sections data.

End update_translations_vehicle.

(** One section of the table merged into the dict of the sections: a new
    section is bound to the content of the table, a section the dict has is
    merged by the [update_json_file] of update_translations.py. *)
Definition merge_section (details : Tree) (sc : str * Tree) : result Tree :=
  let (section, content) := sc in
  if negb (py_contains details section) then py_setitem details section content
  else
    cur <- py_getitem details section ;;
    r <- update_translations.update_json_file cur content ;;
    py_setitem details section r.

(** ** Vocabulary of the statements *)

(** ** Induction on trees *)

Definition Tree_ind (P : Tree -> Prop)
  (fleaf : forall s : str, P (Leaf s))
  (fnode : forall items : list (str * Tree),
      Forall (fun kv => P (snd kv)) items -> P (Node items)) :
  forall t : Tree, P t :=
  fix F (t : Tree) : P t :=
    match t with
    | Leaf s => fleaf s
    | Node items =>
        fnode items
          ((fix G (l : list (str * Tree)) : Forall (fun kv => P (snd kv)) l :=
              match l with
              | [] => Forall_nil _
              | kv :: l' => @Forall_cons _ (fun kv => P (snd kv)) kv l' (F (snd kv)) (G l')
              end) items)
    end.

Definition default_node (cur : option Tree) : Tree :=
  match cur with
  | Some b => b
  | None => Node []
  end.

(** A node with at least one item: the test of line 134 of
    fix_ka_translation.py. *)
Definition nonempty_node (v : Tree) : bool := isinstance_dict v && truthy v.

(** What a merge [du] that recurses into the values selected by [sel] binds
    a key of the overrides to, from the binding [cur] of the key in the base
    and the value [v] it has in the overrides. *)
Definition merge_value (sel : Tree -> bool) (du : Tree -> Tree -> result Tree)
  (cur : option Tree) (v : Tree) : result Tree :=
  if sel v then du (default_node cur) v else Ok v.

(** One turn of the loop of such a merge. *)
Definition merge_body (sel : Tree -> bool) (du : Tree -> Tree -> result Tree)
  (source : Tree) (kv : str * Tree) : result Tree :=
  let (k, v) := kv in
  match source with
  | Node m => x <- merge_value sel du (dict_get m k) v ;; Ok (Node (dict_set m k x))
  | Leaf _ => if sel v then Raise AttributeError else Raise TypeError
  end.

(** The overrides never ask to merge a non-empty node into a leaf of the
    base: wherever they hold a non-empty node, the base holds, at the same
    place, a node or nothing. *)
Fixpoint mergeable (base overrides : Tree) {struct overrides} : bool :=
  match overrides with
  | Leaf _ => false
  | Node items =>
      match base with
      | Leaf _ =>
          match items with
          | [] => true
          | _ :: _ => false
          end
      | Node m =>
          forallb
            (fun kv : str * Tree =>
               let (k, v) := kv in
               match v with
               | Node (_ :: _) => mergeable (default_node (dict_get m k)) v
               | _ => true
               end)
            items
      end
  end.

(** Every proper prefix of the path [p] ends at a key where the base holds a
    node and the overrides hold a node accepted by [sel]. *)
Fixpoint node_collisions (sel : Tree -> bool) (base overrides : Tree)
  (p : list str) {struct p} : bool :=
  match p with
  | [] => true
  | k :: p' =>
      match p' with
      | [] => true
      | _ :: _ =>
          match tree_lookup base k, tree_lookup overrides k with
          | Some (Node b), Some (Node o) =>
              sel (Node o) && node_collisions sel (Node b) (Node o) p'
          | _, _ => false
          end
      end
  end.

(** [t[k] = v] for every item [(k, v)], in order. *)
Definition assign_item (t : Tree) (kv : str * Tree) : result Tree :=
  py_setitem t (fst kv) (snd kv).

(** What [update_json_file] binds a key of the new data to. *)
Definition update_value (cur : option Tree) (value : Tree) : result Tree :=
  match cur, value with
  | Some c, Node sub_items => for_each assign_item sub_items c
  | _, _ => Ok value
  end.

(** The frames a run over [t] takes when it calls itself on the values of a
    dict that [sel] selects: one for the call, and those of the deepest
    selected value. *)
Fixpoint frames_needed (sel : Tree -> bool) (t : Tree) : nat :=
  match t with
  | Leaf _ => 1
  | Node items =>
      S (fold_right
           (fun (kv : str * Tree) (n : nat) =>
              let (_, v) := kv in
              Nat.max (if sel v then frames_needed sel v else 0) n)
           0 items)
  end.

(** The selection of [translate_structure]: every value. *)
Definition every_value (v : Tree) : bool := true.

(** [f] returns or raises what [g] does, or stops at the recursion limit. *)
Definition stops_or_agrees (A : Type) (f g : result A) : Prop :=
  match f with
  | Ok r => g = Ok r
  | Raise e => e = RecursionError \/ g = Raise e
  end.

(** The text [s] inside [n] objects: [{"a": {"a": ... s ... }}]. *)
Fixpoint nested_object (n : nat) (s : str) : str :=
  match n with
  | O => s
  | S n' => text "{'a': " ++ nested_object n' s ++ text "}"
  end.

(** The library documents one exception for a text that is not a JSON
    document. *)
Definition raises_only_JSONDecodeError (json_loads : str -> result Tree) : Prop :=
  forall s e, json_loads s = Raise e -> e = JSONDecodeError.

(** The loader as section 4.2 of the spec words it, to compare with
    [rehydrate_ka.load_lenient]: StrictParse on the raw text, then
    BraceBalance, then CommaStrip, then Fallback, each state left at the
    first parse that succeeds. *)
Definition load_lenient_spec (json_loads : str -> result Tree)
  (raw_text : str) (fallback : Tree) : Tree :=
  match json_loads raw_text with
  | Ok t => t
  | Raise _ =>
      let balanced := rehydrate_ka.fix_braces raw_text in
      match json_loads balanced with
      | Ok t => t
      | Raise _ =>
          match json_loads (rehydrate_ka.strip_trailing_commas balanced) with
          | Ok t => t
          | Raise _ => fallback
          end
      end
  end.

(** [k in ks] on a list of keys. *)
Definition mem_key (k : str) (ks : list str) : bool := existsb (str_eqb k) ks.

(** The keys of [new], in order, that are not among [ks]. *)
Definition fresh_keys (ks new : list str) : list str :=
  filter (fun k => negb (mem_key k ks)) new.

(** No dict below the root of [t] is empty. *)
Fixpoint no_empty_node (t : Tree) : bool :=
  match t with
  | Leaf _ => true
  | Node items =>
      forallb
        (fun kv : str * Tree =>
           let (_, v) := kv in
           match v with
           | Node [] => false
           | _ => no_empty_node v
           end)
        items
  end.

(** One turn of the loop of [update_json_file] on a base that is a dict. *)
Definition update_body (data : Tree) (kv : str * Tree) : result Tree :=
  let (k, v) := kv in
  match data with
  | Node m => x <- update_value (dict_get m k) v ;; Ok (Node (dict_set m k x))
  | Leaf _ => Raise TypeError
  end.

(** Every value of [t] is a text or a dict of texts: the shape of the tables
    [en_updates] and [ka_updates] of update_translations.py. *)
Definition flat_sections (t : Tree) : bool :=
  match t with
  | Leaf _ => false
  | Node items =>
      forallb
        (fun kv : str * Tree =>
           match snd kv with
           | Leaf _ => true
           | Node sub =>
               forallb (fun skv : str * Tree => negb (isinstance_dict (snd skv))) sub
           end)
        items
  end.

(** * Properties *)

(** ** Strings and dict primitives *)

Lemma str_eqb_eq (a b : str) : str_eqb a b = true <-> a = b.
Proof.
  revert b; induction a as [|x a IH]; intros [|y b]; simpl; split;
    try congruence; try reflexivity.
  - rewrite andb_true_iff, N.eqb_eq, IH. intros [-> ->]; reflexivity.
  - intros E; injection E as -> ->.
    rewrite andb_true_iff, N.eqb_eq, IH; split; reflexivity.
Qed.

Lemma str_eqb_refl (a : str) : str_eqb a a = true.
Proof. apply str_eqb_eq; reflexivity. Qed.

Lemma str_eqb_neq (a b : str) : str_eqb a b = false <-> a <> b.
Proof.
  rewrite <- str_eqb_eq. destruct (str_eqb a b); split; congruence.
Qed.

Lemma str_eq_dec (a b : str) : {a = b} + {a <> b}.
Proof.
  destruct (str_eqb a b) eqn:E.
  - left; apply str_eqb_eq; assumption.
  - right; apply str_eqb_neq; assumption.
Qed.

Lemma nodup_keys_NoDup (ks : list str) : nodup_keys ks = true <-> NoDup ks.
Proof.
  induction ks as [|k ks IH]; simpl.
  - split; [constructor | reflexivity].
  - rewrite andb_true_iff, negb_true_iff, IH. split.
    + intros [Hk Hn]. constructor; [|assumption].
      intros Hin. assert (existsb (str_eqb k) ks = true) as E; [|congruence].
      apply existsb_exists. exists k; split; [assumption | apply str_eqb_refl].
    + intros Hn; inversion Hn as [|? ? Hk Hn']; subst. split; [|assumption].
      destruct (existsb (str_eqb k) ks) eqn:E; [|reflexivity].
      apply existsb_exists in E as (k' & Hin & Ek).
      apply str_eqb_eq in Ek; subst k'. contradiction.
Qed.

Lemma dict_get_set_eq (m : dict) (k : str) (v : Tree) :
  dict_get (dict_set m k v) k = Some v.
Proof.
  induction m as [|[k' v'] m IH]; simpl.
  - rewrite str_eqb_refl; reflexivity.
  - destruct (str_eqb k' k) eqn:E; simpl; rewrite E; [reflexivity | exact IH].
Qed.

Lemma dict_get_set_ne (m : dict) (k k' : str) (v : Tree) :
  k <> k' -> dict_get (dict_set m k v) k' = dict_get m k'.
Proof.
  intros Hne. assert (str_eqb k k' = false) as Hb by (apply str_eqb_neq; exact Hne).
  induction m as [|[k0 v0] m IH]; simpl.
  - rewrite Hb; reflexivity.
  - destruct (str_eqb k0 k) eqn:E; simpl.
    + apply str_eqb_eq in E; subst k0. rewrite Hb; reflexivity.
    + rewrite IH; reflexivity.
Qed.

Lemma dict_set_same (m : dict) (k : str) (v : Tree) :
  dict_get m k = Some v -> dict_set m k v = m.
Proof.
  induction m as [|[k' v'] m IH]; simpl; [discriminate|].
  destruct (str_eqb k' k) eqn:E.
  - intros [= ->]; reflexivity.
  - intros H; rewrite IH; [reflexivity | assumption].
Qed.

Lemma dict_get_In (m : dict) (k : str) (v : Tree) :
  dict_get m k = Some v -> In (k, v) m.
Proof.
  induction m as [|[k' v'] m IH]; simpl; [discriminate|].
  destruct (str_eqb k' k) eqn:E.
  - apply str_eqb_eq in E; subst k'. intros [= ->]; left; reflexivity.
  - intros H; right; apply IH; assumption.
Qed.

Lemma dict_get_None (m : dict) (k : str) :
  dict_get m k = None <-> ~ In k (keys m).
Proof.
  induction m as [|[k' v'] m IH]; simpl.
  - split; [intros _ [] | reflexivity].
  - destruct (str_eqb k' k) eqn:E.
    + apply str_eqb_eq in E; subst k'. split; [discriminate|].
      intros H; exfalso; apply H; left; reflexivity.
    + apply str_eqb_neq in E. rewrite IH. split.
      * intros H [Hk | Hin]; [apply E; exact Hk | apply H; exact Hin].
      * intros H Hin; apply H; right; exact Hin.
Qed.

Lemma In_dict_get (m : dict) (k : str) (v : Tree) :
  NoDup (keys m) -> In (k, v) m -> dict_get m k = Some v.
Proof.
  induction m as [|[k' v'] m IH]; simpl; [intros _ []|].
  intros Hn; inversion Hn as [|? ? Hk Hn']; subst.
  intros [E | Hin].
  - injection E as -> ->. rewrite str_eqb_refl; reflexivity.
  - destruct (str_eqb k' k) eqn:E.
    + apply str_eqb_eq in E; subst k'. exfalso; apply Hk.
      change k with (fst (k, v)). apply in_map; assumption.
    + apply IH; assumption.
Qed.

Lemma In_keys (m : dict) (k : str) (v : Tree) : In (k, v) m -> In k (keys m).
Proof. intros H. change k with (fst (k, v)). apply in_map; assumption. Qed.

Lemma wf_tree_Node (items : list (str * Tree)) :
  wf_tree (Node items) = true <->
  NoDup (keys items) /\ forall k v, In (k, v) items -> wf_tree v = true.
Proof.
  simpl. rewrite andb_true_iff, nodup_keys_NoDup, forallb_forall.
  split; intros [Hn Hc]; split; try assumption.
  - intros k v Hin. exact (Hc (k, v) Hin).
  - intros [k v] Hin. exact (Hc k v Hin).
Qed.

(** ** Loops *)

Lemma for_each_ext_in (S X : Type) (f g : S -> X -> result S) (xs : list X) :
  (forall x, In x xs -> forall s, f s x = g s x) ->
  forall s, for_each f xs s = for_each g xs s.
Proof.
  induction xs as [|x xs IH]; intros H s; simpl; [reflexivity|].
  rewrite (H x (or_introl eq_refl)). destruct (g s x); simpl; [|reflexivity].
  apply IH. intros y Hy; apply H; right; assumption.
Qed.

Section SetLoop.

(** A loop whose body rebinds the key of each item to a value computed from
    the current binding of that key and from the item, and which raises on a
    base that is a string. *)
Variable g : option Tree -> Tree -> result Tree.
Variable body : Tree -> str * Tree -> result Tree.

Hypothesis body_Node : forall m k v,
  body (Node m) (k, v) = x <- g (dict_get m k) v ;; Ok (Node (dict_set m k x)).
Hypothesis body_Leaf : forall s kv, exists e, body (Leaf s) kv = Raise e.

Lemma set_loop_Leaf (todo : list (str * Tree)) (s : str) (r : Tree) :
  for_each body todo (Leaf s) = Ok r -> todo = [] /\ r = Leaf s.
Proof.
  destruct todo as [|kv todo]; simpl.
  - intros [= <-]; split; reflexivity.
  - destruct (body_Leaf s kv) as [e ->]; simpl; discriminate.
Qed.

Lemma set_loop_ok (todo : list (str * Tree)) :
  NoDup (keys todo) ->
  forall m r, for_each body todo (Node m) = Ok r ->
  exists m', r = Node m' /\
    (forall k v, In (k, v) todo ->
       exists x, g (dict_get m k) v = Ok x /\ dict_get m' k = Some x) /\
    (forall k, ~ In k (keys todo) -> dict_get m' k = dict_get m k).
Proof.
  induction todo as [|[k v] todo IH]; simpl; intros Hn m r.
  - intros [= <-]. exists m. split; [reflexivity|]. split; [intros ? ? [] | reflexivity].
  - inversion Hn as [|? ? Hk Hn']; subst.
    rewrite body_Node. destruct (g (dict_get m k) v) as [x|e] eqn:Eg; simpl;
      [|discriminate].
    intros Hloop. destruct (IH Hn' _ _ Hloop) as (m' & -> & Hin & Hout).
    exists m'; split; [reflexivity|]. split.
    + intros k0 v0 [E | Hin0].
      * injection E as <- <-. exists x; split; [assumption|].
        rewrite (Hout k Hk). apply dict_get_set_eq.
      * destruct (Hin k0 v0 Hin0) as (x0 & Hg & Hget).
        exists x0; split; [|assumption].
        rewrite dict_get_set_ne in Hg; [assumption|].
        intros ->. apply Hk. eapply In_keys; eassumption.
    + intros k0 Hk0. rewrite (Hout k0).
      * apply dict_get_set_ne. intros ->; apply Hk0; left; reflexivity.
      * intros H; apply Hk0; right; assumption.
Qed.

Lemma set_loop_total (todo : list (str * Tree)) :
  NoDup (keys todo) ->
  forall m,
    (forall k v, In (k, v) todo -> exists x, g (dict_get m k) v = Ok x) ->
    exists r, for_each body todo (Node m) = Ok r.
Proof.
  induction todo as [|[k v] todo IH]; simpl; intros Hn m Hg.
  - exists (Node m); reflexivity.
  - inversion Hn as [|? ? Hk Hn']; subst.
    rewrite body_Node. destruct (Hg k v (or_introl eq_refl)) as [x ->]; simpl.
    apply IH; [assumption|]. intros k0 v0 Hin0.
    rewrite dict_get_set_ne; [apply Hg; right; assumption|].
    intros ->. apply Hk. eapply In_keys; eassumption.
Qed.

Lemma set_loop_fixed (todo : list (str * Tree)) (m : dict) :
  (forall k v, In (k, v) todo ->
     exists x, g (dict_get m k) v = Ok x /\ dict_get m k = Some x) ->
  for_each body todo (Node m) = Ok (Node m).
Proof.
  induction todo as [|[k v] todo IH]; simpl; intros H; [reflexivity|].
  rewrite body_Node. destruct (H k v (or_introl eq_refl)) as (x & -> & Hget); simpl.
  rewrite (dict_set_same _ _ _ Hget). apply IH.
  intros k0 v0 Hin; apply H; right; assumption.
Qed.

End SetLoop.

Lemma wf_tree_lookup (t : Tree) (k : str) (v : Tree) :
  wf_tree t = true -> tree_lookup t k = Some v -> wf_tree v = true.
Proof.
  destruct t as [l|items]; [discriminate|].
  intros Hwf Hk. apply wf_tree_Node in Hwf as [_ Hc].
  apply (Hc k). apply dict_get_In; exact Hk.
Qed.

(** ** The shape the two [deep_update] share *)

Section Merge.

(** [du] is a merge that recurses into the values of the overrides selected
    by [sel] and overwrites at the others. *)
Variable sel : Tree -> bool.
Variable du : Tree -> Tree -> result Tree.

Hypothesis du_Leaf : forall base l, du base (Leaf l) = Raise AttributeError.
Hypothesis du_Node : forall base items,
  NoDup (keys items) ->
  du base (Node items) = for_each (merge_body sel du) items base.

Lemma merge_body_Node (m : dict) (k : str) (v : Tree) :
  merge_body sel du (Node m) (k, v)
  = x <- merge_value sel du (dict_get m k) v ;; Ok (Node (dict_set m k x)).
Proof. reflexivity. Qed.

Lemma merge_body_Leaf (s : str) (kv : str * Tree) :
  exists e, merge_body sel du (Leaf s) kv = Raise e.
Proof.
  destruct kv as [k v]; simpl. destruct (sel v); eexists; reflexivity.
Qed.

(** On a base that is a string only the empty overrides go through. *)
Lemma merge_Leaf_base (s : str) (ov r : Tree) :
  wf_tree ov = true -> du (Leaf s) ov = Ok r -> ov = Node [] /\ r = Leaf s.
Proof.
  destruct ov as [l|items]; [rewrite du_Leaf; discriminate|].
  intros Hwf. apply wf_tree_Node in Hwf as [Hn _].
  rewrite (du_Node _ _ Hn). intros H.
  apply (set_loop_Leaf _ merge_body_Leaf) in H as [-> ->]. split; reflexivity.
Qed.

(** What a successful merge leaves at the keys of the overrides and at the
    other keys. *)
Lemma merge_spec (base ov r : Tree) :
  wf_tree ov = true ->
  du base ov = Ok r ->
  (forall k v, tree_lookup ov k = Some v ->
     exists x, merge_value sel du (tree_lookup base k) v = Ok x /\
               tree_lookup r k = Some x) /\
  (forall k, tree_lookup ov k = None -> tree_lookup r k = tree_lookup base k).
Proof.
  intros Hwf H. destruct ov as [l|items]; [rewrite du_Leaf in H; discriminate|].
  destruct base as [s|m].
  - destruct (merge_Leaf_base _ _ _ Hwf H) as [E ->].
    injection E as ->. split; [intros k v; discriminate | reflexivity].
  - apply wf_tree_Node in Hwf as [Hn _].
    rewrite (du_Node _ _ Hn) in H.
    destruct (set_loop_ok _ _ merge_body_Node _ Hn _ _ H) as (m' & -> & Hin & Hout).
    split.
    + intros k v Hk. apply Hin. apply dict_get_In; exact Hk.
    + intros k Hk. apply Hout. apply dict_get_None; exact Hk.
Qed.

(** Merging the same overrides again changes nothing. *)
Lemma merge_twice (O : Tree) :
  wf_tree O = true -> forall T r, du T O = Ok r -> du r O = Ok r.
Proof.
  induction O as [l|items IH] using Tree_ind; intros Hwf T r H.
  - rewrite du_Leaf in H; discriminate.
  - destruct T as [s|m].
    + destruct (merge_Leaf_base _ _ _ Hwf H) as [E ->].
      injection E as ->. apply (du_Node _ []). constructor.
    + apply wf_tree_Node in Hwf as [Hn Hc].
      rewrite (du_Node _ _ Hn) in H.
      destruct (set_loop_ok _ _ merge_body_Node _ Hn _ _ H) as (m' & -> & Hin & _).
      rewrite (du_Node _ _ Hn).
      apply (set_loop_fixed _ _ merge_body_Node).
      intros k v Hkv. destruct (Hin k v Hkv) as (x & Hg & Hget).
      exists x; split; [|exact Hget]. rewrite Hget.
      unfold merge_value in *. destruct (sel v); [|exact Hg].
      rewrite Forall_forall in IH.
      exact (IH (k, v) Hkv (Hc k v Hkv) _ _ Hg).
Qed.

(** A key of the base at the end of a path along which the merge recurses is
    kept, and keeps its value when the overrides do not have it. *)
Lemma merge_keeps (p : list str) :
  p <> [] ->
  forall base ov r x,
    wf_tree ov = true ->
    du base ov = Ok r ->
    lookup_path base p = Some x ->
    node_collisions sel base ov p = true ->
    exists y, lookup_path r p = Some y /\ (lookup_path ov p = None -> y = x).
Proof.
  induction p as [|k p' IH]; [congruence|]. intros _ base ov r x Hwf H Hx Hcol.
  destruct (merge_spec _ _ _ Hwf H) as [Hin Hout].
  destruct p' as [|k2 p''].
  - simpl in *. destruct (tree_lookup base k) as [bv|] eqn:Hb; [|discriminate].
    injection Hx as <-.
    destruct (tree_lookup ov k) as [v|] eqn:Hv.
    + destruct (Hin k v Hv) as (y & _ & Hy). rewrite Hy.
      exists y; split; [reflexivity | discriminate].
    + rewrite (Hout k Hv), Hb. exists bv; split; reflexivity.
  - remember (k2 :: p'') as q eqn:Eq.
    assert (q <> []) as Hq by (subst q; discriminate).
    cbn [lookup_path] in Hx |- *. cbn [node_collisions] in Hcol.
    rewrite Eq in Hcol at 1.
    destruct (tree_lookup base k) as [[l|b]|] eqn:Hb; try discriminate.
    destruct (tree_lookup ov k) as [[l|o]|] eqn:Hv; try discriminate.
    apply andb_true_iff in Hcol as [Hsel Hcol].
    destruct (Hin k (Node o) Hv) as (y1 & Hg & Hy1). rewrite Hy1.
    rewrite Hb in Hg. unfold merge_value in Hg. rewrite Hsel in Hg.
    exact (IH Hq (Node b) (Node o) y1 x (wf_tree_lookup _ _ _ Hwf Hv) Hg Hx Hcol).
Qed.

(** The merge recurses into the non-empty nodes at least, and into nodes
    only. *)
Hypothesis sel_Leaf : forall l, sel (Leaf l) = false.
Hypothesis sel_nonempty : forall kv items, sel (Node (kv :: items)) = true.

Lemma merge_value_ok (cur : option Tree) (v : Tree) :
  (exists x, merge_value sel du cur v = Ok x) <->
  match v with
  | Node (_ :: _) => exists x, du (default_node cur) v = Ok x
  | _ => True
  end.
Proof.
  unfold merge_value. destruct v as [l|[|kv items]].
  - rewrite sel_Leaf. split; [trivial | intros _; eexists; reflexivity].
  - split; [trivial|]. intros _. destruct (sel (Node [])).
    + rewrite (du_Node _ []) by constructor. eexists; reflexivity.
    + eexists; reflexivity.
  - rewrite sel_nonempty. reflexivity.
Qed.

(** The merge goes through exactly on the pairs of trees that are
    [mergeable]. *)
Lemma merge_succeeds_iff (ov : Tree) :
  wf_tree ov = true ->
  forall base, (exists r, du base ov = Ok r) <-> mergeable base ov = true.
Proof.
  induction ov as [l|items IH] using Tree_ind; intros Hwf base.
  - rewrite du_Leaf. simpl. split; [intros [r H]; discriminate | discriminate].
  - rewrite Forall_forall in IH.
    pose proof Hwf as Hwf'. apply wf_tree_Node in Hwf' as [Hn Hc].
    rewrite (du_Node _ _ Hn).
    destruct base as [s|m].
    + split.
      * intros [r H]. apply (set_loop_Leaf _ merge_body_Leaf) in H as [-> _].
        reflexivity.
      * destruct items; [exists (Leaf s); reflexivity | discriminate].
    + cbn [mergeable]. rewrite forallb_forall. split.
      * intros [r H] [k v] Hin.
        destruct (set_loop_ok _ _ merge_body_Node _ Hn _ _ H) as (m' & _ & Hin' & _).
        destruct (Hin' k v Hin) as (x & Hg & _).
        assert (exists x, merge_value sel du (dict_get m k) v = Ok x) as Hex
            by (exists x; exact Hg).
        apply merge_value_ok in Hex.
        destruct v as [l|[|kv its]]; try reflexivity.
        apply (IH (k, Node (kv :: its)) Hin (Hc _ _ Hin)). exact Hex.
      * intros Hall. apply (set_loop_total _ _ merge_body_Node _ Hn).
        intros k v Hin. specialize (Hall (k, v) Hin). cbn beta iota in Hall.
        apply merge_value_ok.
        destruct v as [l|[|kv its]]; try exact I.
        apply (IH (k, Node (kv :: its)) Hin (Hc _ _ Hin)). exact Hall.
Qed.

End Merge.

(** ** The two [deep_update] have this shape *)

Lemma fix_du_Leaf (base : Tree) (l : str) :
  fix_ka_translation.deep_update base (Leaf l) = Raise AttributeError.
Proof. reflexivity. Qed.

Lemma fix_du_Node (base : Tree) (items : list (str * Tree)) :
  NoDup (keys items) ->
  fix_ka_translation.deep_update base (Node items)
  = for_each (merge_body nonempty_node fix_ka_translation.deep_update) items base.
Proof.
  intros Hn. cbn [fix_ka_translation.deep_update]. apply for_each_ext_in.
  intros [key value] Hin s. unfold merge_body, merge_value.
  change (isinstance_dict value && truthy value) with (nonempty_node value).
  destruct (nonempty_node value).
  - destruct s as [l|m]; [reflexivity|]. cbn [py_get].
    destruct (dict_get m key); reflexivity.
  - cbn [py_getitem]. rewrite (In_dict_get _ _ _ Hn Hin).
    destruct s; reflexivity.
Qed.

Lemma rehydrate_du_Leaf (base : Tree) (l : str) :
  rehydrate_ka.deep_update base (Leaf l) = Raise AttributeError.
Proof. reflexivity. Qed.

Lemma rehydrate_du_Node (base : Tree) (items : list (str * Tree)) :
  NoDup (keys items) ->
  rehydrate_ka.deep_update base (Node items)
  = for_each (merge_body isinstance_dict rehydrate_ka.deep_update) items base.
Proof.
  intros _. cbn [rehydrate_ka.deep_update]. apply for_each_ext_in.
  intros [k v] _ s. unfold merge_body, merge_value.
  destruct (isinstance_dict v).
  - destruct s as [l|m]; [reflexivity|]. cbn [py_get].
    destruct (dict_get m k); reflexivity.
  - destruct s; reflexivity.
Qed.

Create HintDb merge_shape.

#[local] Hint Resolve fix_du_Leaf fix_du_Node rehydrate_du_Leaf rehydrate_du_Node
  : merge_shape.

(** The instances of the lemmas of the section. *)
Ltac by_shape lemma := eapply lemma; eauto with merge_shape.

Lemma fix_spec (base ov r : Tree) :
  wf_tree ov = true ->
  fix_ka_translation.deep_update base ov = Ok r ->
  (forall k v, tree_lookup ov k = Some v ->
     exists x,
       merge_value nonempty_node fix_ka_translation.deep_update
         (tree_lookup base k) v = Ok x /\
       tree_lookup r k = Some x) /\
  (forall k, tree_lookup ov k = None -> tree_lookup r k = tree_lookup base k).
Proof. by_shape merge_spec. Qed.

Lemma rehydrate_spec (base u r : Tree) :
  wf_tree u = true ->
  rehydrate_ka.deep_update base u = Ok r ->
  (forall k v, tree_lookup u k = Some v ->
     exists x,
       merge_value isinstance_dict rehydrate_ka.deep_update
         (tree_lookup base k) v = Ok x /\
       tree_lookup r k = Some x) /\
  (forall k, tree_lookup u k = None -> tree_lookup r k = tree_lookup base k).
Proof. by_shape merge_spec. Qed.

Lemma fix_Leaf_base (s : str) (ov r : Tree) :
  wf_tree ov = true ->
  fix_ka_translation.deep_update (Leaf s) ov = Ok r -> ov = Node [] /\ r = Leaf s.
Proof. by_shape merge_Leaf_base. Qed.

Lemma fix_total_iff (overrides : Tree) :
  wf_tree overrides = true ->
  forall base,
    (exists r, fix_ka_translation.deep_update base overrides = Ok r)
    <-> mergeable base overrides = true.
Proof. intros Hwf. by_shape merge_succeeds_iff. Qed.

Lemma rehydrate_total_iff (u : Tree) :
  wf_tree u = true ->
  forall base,
    (exists r, rehydrate_ka.deep_update base u = Ok r) <-> mergeable base u = true.
Proof. intros Hwf. by_shape merge_succeeds_iff. Qed.

(** ** The merges under the recursion limit *)

Lemma for_each_raises (S X : Type) (body : S -> X -> result S) (xs : list X) :
  (exists x, In x xs /\ forall s, exists e, body s x = Raise e) ->
  forall s, exists e, for_each body xs s = Raise e.
Proof.
  induction xs as [|x xs IH]; intros (x0 & Hin & Hr) s; [destruct Hin|].
  cbn [for_each]. destruct (body s x) as [s'|e] eqn:E; cbn [bind].
  - destruct Hin as [-> | Hin].
    + destruct (Hr s) as [e He]. congruence.
    + apply IH. exists x0; split; assumption.
  - exists e; reflexivity.
Qed.

Lemma for_each_raise_inv (S X : Type) (body : S -> X -> result S) (xs : list X) :
  forall s e, for_each body xs s = Raise e ->
              exists x s', In x xs /\ body s' x = Raise e.
Proof.
  induction xs as [|x xs IH]; intros s e; cbn [for_each]; [discriminate|].
  destruct (body s x) as [s'|e'] eqn:E; cbn [bind].
  - intros H. destruct (IH _ _ H) as (x0 & s0 & Hin & H0).
    exists x0, s0. split; [right; exact Hin | exact H0].
  - intros [= ->]. exists x, s. split; [left; reflexivity | exact E].
Qed.

Lemma for_each_stops_or_agrees (S X : Type) (f g : S -> X -> result S)
  (xs : list X) :
  (forall x, In x xs -> forall s, stops_or_agrees S (f s x) (g s x)) ->
  forall s, stops_or_agrees S (for_each f xs s) (for_each g xs s).
Proof.
  induction xs as [|x xs IH]; intros H s; cbn [for_each]; [reflexivity|].
  pose proof (H x (or_introl eq_refl) s) as Hx. unfold stops_or_agrees in Hx.
  destruct (f s x) as [r|e]; cbn [bind].
  - rewrite Hx. cbn [bind]. apply IH. intros y Hy. apply H. right. exact Hy.
  - destruct Hx as [->|Hx]; [left; reflexivity|]. rewrite Hx. right. reflexivity.
Qed.

Lemma frames_needed_In (sel : Tree -> bool) (items : list (str * Tree))
  (k : str) (v : Tree) :
  In (k, v) items -> sel v = true ->
  S (frames_needed sel v) <= frames_needed sel (Node items).
Proof.
  intros Hin Hs. cbn [frames_needed]. apply le_n_S.
  induction items as [|[k' v'] items IH]; [destruct Hin|].
  cbn [fold_right]. destruct Hin as [E|Hin].
  - injection E as -> ->. rewrite Hs. lia.
  - specialize (IH Hin). lia.
Qed.

Lemma frames_needed_deepest (sel : Tree -> bool) (items : list (str * Tree))
  (n : nat) :
  S n < frames_needed sel (Node items) ->
  exists k v, In (k, v) items /\ sel v = true /\ n < frames_needed sel v.
Proof.
  cbn [frames_needed]. intros H. apply PeanoNat.lt_S_n in H.
  induction items as [|[k v] items IH]; cbn [fold_right] in H; [lia|].
  destruct (Nat.max_spec (if sel v then frames_needed sel v else 0)
              (fold_right
                 (fun (kv : str * Tree) (n : nat) =>
                    let (_, v) := kv in
                    Nat.max (if sel v then frames_needed sel v else 0) n)
                 0 items)) as [[_ E]|[_ E]]; rewrite E in H.
  - destruct (IH H) as (k0 & v0 & Hin & Hs & Hn).
    exists k0, v0. split; [right; exact Hin | split; assumption].
  - destruct (sel v) eqn:Hs; [|lia].
    exists k, v. split; [left; reflexivity | split; assumption].
Qed.

Lemma frames_needed_pos (sel : Tree -> bool) (t : Tree) : 0 < frames_needed sel t.
Proof. destruct t; cbn [frames_needed]; lia. Qed.

Section MergeWithin.

(** [du] is a merge of the shape above, [du_within] the same merge under the
    recursion limit. *)
Variable sel : Tree -> bool.
Variable du : Tree -> Tree -> result Tree.
Variable du_within : nat -> Tree -> Tree -> result Tree.

Hypothesis du_Leaf : forall base l, du base (Leaf l) = Raise AttributeError.
Hypothesis du_Node : forall base items,
  NoDup (keys items) ->
  du base (Node items) = for_each (merge_body sel du) items base.
Hypothesis du_within_O : forall base ov, du_within 0 base ov = Raise RecursionError.
Hypothesis du_within_Leaf : forall n base l,
  du_within (S n) base (Leaf l) = Raise AttributeError.
Hypothesis du_within_Node : forall n base items,
  NoDup (keys items) ->
  du_within (S n) base (Node items)
  = for_each (merge_body sel (du_within n)) items base.
Hypothesis sel_Leaf : forall l, sel (Leaf l) = false.
Hypothesis sel_nonempty : forall kv items, sel (Node (kv :: items)) = true.

(** Under the limit the merge does what it does with frames to spare, or
    stops with [RecursionError]. *)
Lemma within_stops_or_agrees (n : nat) :
  forall ov base, wf_tree ov = true ->
                  stops_or_agrees Tree (du_within n base ov) (du base ov).
Proof.
  induction n as [|n IH]; intros ov base Hwf.
  - rewrite du_within_O. left. reflexivity.
  - destruct ov as [l|items].
    + rewrite du_within_Leaf, du_Leaf. right. reflexivity.
    + pose proof Hwf as Hwf'. apply wf_tree_Node in Hwf' as [Hn Hc].
      rewrite (du_within_Node _ _ _ Hn), (du_Node _ _ Hn).
      apply for_each_stops_or_agrees. intros [k v] Hin s.
      destruct s as [l|m]; cbn [merge_body].
      * destruct (sel v); right; reflexivity.
      * unfold merge_value. destruct (sel v).
        -- pose proof (IH v (default_node (dict_get m k)) (Hc k v Hin)) as Hv.
           unfold stops_or_agrees in Hv |- *.
           destruct (du_within n (default_node (dict_get m k)) v) as [r|e];
             cbn [bind].
           ++ rewrite Hv. reflexivity.
           ++ destruct Hv as [->|Hv]; [left; reflexivity|].
              rewrite Hv. right. reflexivity.
        -- cbn [bind]. reflexivity.
Qed.

(** With as many frames as the overrides need, the limit is not met. *)
Lemma within_enough (n : nat) :
  forall ov base, wf_tree ov = true -> frames_needed sel ov <= n ->
                  du_within n base ov = du base ov.
Proof.
  induction n as [|n IH]; intros ov base Hwf Hle.
  - pose proof (frames_needed_pos sel ov). lia.
  - destruct ov as [l|items].
    + rewrite du_within_Leaf, du_Leaf. reflexivity.
    + pose proof Hwf as Hwf'. apply wf_tree_Node in Hwf' as [Hn Hc].
      rewrite (du_within_Node _ _ _ Hn), (du_Node _ _ Hn).
      apply for_each_ext_in. intros [k v] Hin s.
      destruct s as [l|m]; cbn [merge_body]; [reflexivity|].
      unfold merge_value. destruct (sel v) eqn:Hs; [|reflexivity].
      pose proof (frames_needed_In sel items k v Hin Hs) as Hd.
      rewrite (IH v _ (Hc k v Hin)) by lia. reflexivity.
Qed.

(** With fewer frames the merge raises. *)
Lemma within_short (n : nat) :
  forall ov base, wf_tree ov = true -> n < frames_needed sel ov ->
                  exists e, du_within n base ov = Raise e.
Proof.
  induction n as [|n IH]; intros ov base Hwf Hlt.
  - rewrite du_within_O. eexists; reflexivity.
  - destruct ov as [l|items].
    + rewrite du_within_Leaf. eexists; reflexivity.
    + pose proof Hwf as Hwf'. apply wf_tree_Node in Hwf' as [Hn Hc].
      rewrite (du_within_Node _ _ _ Hn).
      destruct (frames_needed_deepest sel items n Hlt) as (k & v & Hin & Hs & Hv).
      apply for_each_raises. exists (k, v). split; [exact Hin|].
      intros [l|m]; cbn [merge_body].
      * rewrite Hs. eexists; reflexivity.
      * unfold merge_value. rewrite Hs.
        destruct (IH v (default_node (dict_get m k)) (Hc k v Hin) Hv) as [e ->].
        eexists; reflexivity.
Qed.

(** With frames to spare the merge raises nothing but [AttributeError] and
    [TypeError]. *)
Lemma merge_raise_kinds (ov : Tree) :
  wf_tree ov = true ->
  forall base e, du base ov = Raise e -> e = AttributeError \/ e = TypeError.
Proof.
  induction ov as [l|items IH] using Tree_ind; intros Hwf base e.
  - rewrite du_Leaf. intros [= <-]. left. reflexivity.
  - pose proof Hwf as Hwf'. apply wf_tree_Node in Hwf' as [Hn Hc].
    rewrite (du_Node _ _ Hn). rewrite Forall_forall in IH. intros H.
    apply for_each_raise_inv in H as ([k v] & s & Hin & H).
    destruct s as [l|m]; cbn [merge_body] in H.
    + destruct (sel v); injection H as <-; [left | right]; reflexivity.
    + unfold merge_value in H. destruct (sel v); [|discriminate].
      destruct (du (default_node (dict_get m k)) v) as [x|e'] eqn:E;
        [discriminate|].
      injection H as <-. exact (IH (k, v) Hin (Hc k v Hin) _ _ E).
Qed.

(** The outcome of the merge under the limit: it goes through exactly when
    the trees are [mergeable] and the frames suffice; it returns what the
    merge with frames to spare returns; when the trees are not mergeable it
    raises [AttributeError] or [TypeError], unless the limit is met first;
    when they are and the frames do not suffice it raises
    [RecursionError]; it raises nothing but these three. *)
Lemma within_outcome (n : nat) (base ov : Tree) :
  wf_tree ov = true ->
  ((exists r, du_within n base ov = Ok r) <->
   mergeable base ov = true /\ frames_needed sel ov <= n) /\
  (forall r, du_within n base ov = Ok r -> du base ov = Ok r) /\
  (mergeable base ov = false -> frames_needed sel ov <= n ->
   du_within n base ov = Raise AttributeError \/
   du_within n base ov = Raise TypeError) /\
  (mergeable base ov = true -> n < frames_needed sel ov ->
   du_within n base ov = Raise RecursionError) /\
  (forall e, du_within n base ov = Raise e ->
   e = AttributeError \/ e = TypeError \/ e = RecursionError).
Proof.
  intros Hwf.
  pose proof (within_stops_or_agrees n ov base Hwf) as Hsim.
  pose proof (merge_succeeds_iff sel du du_Leaf du_Node sel_Leaf sel_nonempty
                ov Hwf base) as Hiff.
  unfold stops_or_agrees in Hsim.
  split; [|split; [|split; [|split]]].
  - split.
    + intros [r H]. rewrite H in Hsim. split.
      * apply Hiff. exists r. exact Hsim.
      * destruct (Nat.le_gt_cases (frames_needed sel ov) n) as [Hle|Hgt];
          [exact Hle|].
        destruct (within_short n ov base Hwf Hgt) as [e He]. congruence.
    + intros [Hm Hle]. rewrite (within_enough n ov base Hwf Hle).
      apply Hiff. exact Hm.
  - intros r H. rewrite H in Hsim. exact Hsim.
  - intros Hm Hle. rewrite (within_enough n ov base Hwf Hle).
    destruct (du base ov) as [r|e] eqn:E.
    + assert (mergeable base ov = true) as Ht by (apply Hiff; exists r; reflexivity).
      congruence.
    + destruct (merge_raise_kinds ov Hwf base e E) as [->| ->];
        [left | right]; reflexivity.
  - intros Hm Hlt. destruct (within_short n ov base Hwf Hlt) as [e He].
    rewrite He in Hsim |- *. destruct Hsim as [->|Hsim]; [reflexivity|].
    apply Hiff in Hm as [r Hr]. congruence.
  - intros e H. rewrite H in Hsim. destruct Hsim as [->|Hsim].
    + right. right. reflexivity.
    + destruct (merge_raise_kinds ov Hwf base e Hsim) as [->| ->];
        [left | right; left]; reflexivity.
Qed.

End MergeWithin.

(** The two [deep_update_within] are the two [deep_update] under the
    limit. *)
Lemma fix_within_O (base ov : Tree) :
  fix_ka_translation.deep_update_within 0 base ov = Raise RecursionError.
Proof. reflexivity. Qed.

Lemma fix_within_Leaf (n : nat) (base : Tree) (l : str) :
  fix_ka_translation.deep_update_within (S n) base (Leaf l) = Raise AttributeError.
Proof. reflexivity. Qed.

Lemma fix_within_Node (n : nat) (base : Tree) (items : list (str * Tree)) :
  NoDup (keys items) ->
  fix_ka_translation.deep_update_within (S n) base (Node items)
  = for_each (merge_body nonempty_node (fix_ka_translation.deep_update_within n))
      items base.
Proof.
  intros Hn. cbn [fix_ka_translation.deep_update_within]. apply for_each_ext_in.
  intros [key value] Hin s. unfold merge_body, merge_value.
  change (isinstance_dict value && truthy value) with (nonempty_node value).
  destruct (nonempty_node value).
  - destruct s as [l|m]; [reflexivity|]. cbn [py_get].
    destruct (dict_get m key); reflexivity.
  - cbn [py_getitem]. rewrite (In_dict_get _ _ _ Hn Hin).
    destruct s; reflexivity.
Qed.

Lemma rehydrate_within_O (base ov : Tree) :
  rehydrate_ka.deep_update_within 0 base ov = Raise RecursionError.
Proof. reflexivity. Qed.

Lemma rehydrate_within_Leaf (n : nat) (base : Tree) (l : str) :
  rehydrate_ka.deep_update_within (S n) base (Leaf l) = Raise AttributeError.
Proof. reflexivity. Qed.

Lemma rehydrate_within_Node (n : nat) (base : Tree) (items : list (str * Tree)) :
  NoDup (keys items) ->
  rehydrate_ka.deep_update_within (S n) base (Node items)
  = for_each (merge_body isinstance_dict (rehydrate_ka.deep_update_within n))
      items base.
Proof.
  intros _. cbn [rehydrate_ka.deep_update_within]. apply for_each_ext_in.
  intros [k v] _ s. unfold merge_body, merge_value.
  destruct (isinstance_dict v).
  - destruct s as [l|m]; [reflexivity|]. cbn [py_get].
    destruct (dict_get m k); reflexivity.
  - destruct s; reflexivity.
Qed.

Lemma nonempty_node_Leaf (l : str) : nonempty_node (Leaf l) = false.
Proof. reflexivity. Qed.

Lemma nonempty_node_cons (kv : str * Tree) (items : list (str * Tree)) :
  nonempty_node (Node (kv :: items)) = true.
Proof. reflexivity. Qed.

Lemma isinstance_dict_Leaf (l : str) : isinstance_dict (Leaf l) = false.
Proof. reflexivity. Qed.

Lemma isinstance_dict_cons (kv : str * Tree) (items : list (str * Tree)) :
  isinstance_dict (Node (kv :: items)) = true.
Proof. reflexivity. Qed.

Lemma fix_within_outcome (frames : nat) (base overrides : Tree) :
  wf_tree overrides = true ->
  ((exists r, fix_ka_translation.deep_update_within frames base overrides = Ok r) <->
   mergeable base overrides = true /\
   frames_needed nonempty_node overrides <= frames) /\
  (forall r, fix_ka_translation.deep_update_within frames base overrides = Ok r ->
             fix_ka_translation.deep_update base overrides = Ok r) /\
  (mergeable base overrides = false ->
   frames_needed nonempty_node overrides <= frames ->
   fix_ka_translation.deep_update_within frames base overrides = Raise AttributeError \/
   fix_ka_translation.deep_update_within frames base overrides = Raise TypeError) /\
  (mergeable base overrides = true ->
   frames < frames_needed nonempty_node overrides ->
   fix_ka_translation.deep_update_within frames base overrides = Raise RecursionError) /\
  (forall e, fix_ka_translation.deep_update_within frames base overrides = Raise e ->
   e = AttributeError \/ e = TypeError \/ e = RecursionError).
Proof.
  exact (within_outcome nonempty_node fix_ka_translation.deep_update
           fix_ka_translation.deep_update_within fix_du_Leaf fix_du_Node
           fix_within_O fix_within_Leaf fix_within_Node
           nonempty_node_Leaf nonempty_node_cons frames base overrides).
Qed.

Lemma rehydrate_within_outcome (frames : nat) (d u : Tree) :
  wf_tree u = true ->
  ((exists r, rehydrate_ka.deep_update_within frames d u = Ok r) <->
   mergeable d u = true /\ frames_needed isinstance_dict u <= frames) /\
  (forall r, rehydrate_ka.deep_update_within frames d u = Ok r ->
             rehydrate_ka.deep_update d u = Ok r) /\
  (mergeable d u = false ->
   frames_needed isinstance_dict u <= frames ->
   rehydrate_ka.deep_update_within frames d u = Raise AttributeError \/
   rehydrate_ka.deep_update_within frames d u = Raise TypeError) /\
  (mergeable d u = true ->
   frames < frames_needed isinstance_dict u ->
   rehydrate_ka.deep_update_within frames d u = Raise RecursionError) /\
  (forall e, rehydrate_ka.deep_update_within frames d u = Raise e ->
   e = AttributeError \/ e = TypeError \/ e = RecursionError).
Proof.
  exact (within_outcome isinstance_dict rehydrate_ka.deep_update
           rehydrate_ka.deep_update_within rehydrate_du_Leaf rehydrate_du_Node
           rehydrate_within_O rehydrate_within_Leaf rehydrate_within_Node
           isinstance_dict_Leaf isinstance_dict_cons frames d u).
Qed.

(** What [deep_update] returns under the limit it returns with frames to
    spare: every property of a successful [deep_update] is one of a
    successful [deep_update_within]. *)
Lemma fix_within_sound (frames : nat) (base overrides r : Tree) :
  wf_tree overrides = true ->
  fix_ka_translation.deep_update_within frames base overrides = Ok r ->
  fix_ka_translation.deep_update base overrides = Ok r.
Proof.
  intros Hwf. exact (proj1 (proj2 (fix_within_outcome frames base overrides Hwf)) r).
Qed.

Lemma rehydrate_within_sound (frames : nat) (d u r : Tree) :
  wf_tree u = true ->
  rehydrate_ka.deep_update_within frames d u = Ok r ->
  rehydrate_ka.deep_update d u = Ok r.
Proof.
  intros Hwf. exact (proj1 (proj2 (rehydrate_within_outcome frames d u Hwf)) r).
Qed.

(** With frames enough the limit is not met. *)
Lemma fix_within_enough (frames : nat) (base overrides : Tree) :
  wf_tree overrides = true ->
  frames_needed nonempty_node overrides <= frames ->
  fix_ka_translation.deep_update_within frames base overrides
  = fix_ka_translation.deep_update base overrides.
Proof.
  intros Hwf Hle.
  exact (within_enough nonempty_node fix_ka_translation.deep_update
           fix_ka_translation.deep_update_within fix_du_Leaf fix_du_Node
           fix_within_Leaf fix_within_Node frames overrides base Hwf Hle).
Qed.

Lemma rehydrate_within_enough (frames : nat) (d u : Tree) :
  wf_tree u = true ->
  frames_needed isinstance_dict u <= frames ->
  rehydrate_ka.deep_update_within frames d u = rehydrate_ka.deep_update d u.
Proof.
  intros Hwf Hle.
  exact (within_enough isinstance_dict rehydrate_ka.deep_update
           rehydrate_ka.deep_update_within rehydrate_du_Leaf rehydrate_du_Node
           rehydrate_within_Leaf rehydrate_within_Node frames u d Hwf Hle).
Qed.

(** ** Claims on the merge of fix_ka_translation.py *)

(** C8.  Merging an empty overrides node is the identity: for every tree
    [T], [deep_update(T, {})] returns [T] itself, with no key added, removed
    or changed. *)
Theorem merge_empty_overrides_identity (T : Tree) :
  fix_ka_translation.deep_update T (Node []) = Ok T.
Proof. reflexivity. Qed.

(** C7.  The merge is idempotent in the overrides: when [deep_update(T, O)]
    succeeds with result [r], merging [O] into [r] again succeeds and returns
    [r] unchanged. *)
Theorem merge_idempotent (T O r : Tree) :
  wf_tree O = true ->
  fix_ka_translation.deep_update T O = Ok r ->
  fix_ka_translation.deep_update r O = Ok r.
Proof. intros Hwf H. by_shape merge_twice. Qed.

Lemma merge_idempotent_witness :
  let T := Node [(py "a", Node [(py "x", Leaf (py "1"))]); (py "t", Leaf (py "u"))] in
  let O := Node [(py "a", Node [(py "y", Leaf (py "2"))]); (py "e", Node [])] in
  let r := Node [(py "a", Node [(py "x", Leaf (py "1")); (py "y", Leaf (py "2"))]);
                 (py "t", Leaf (py "u")); (py "e", Node [])] in
  wf_tree O = true /\
  fix_ka_translation.deep_update T O = Ok r /\
  fix_ka_translation.deep_update r O = Ok r.
Proof.
  intros T O r.
  split; [reflexivity|]. split; [reflexivity|].
  apply (merge_idempotent T O r); reflexivity.
Defined.

(** C4, as stated, fails where the overrides hold an empty node at a key at
    which the base holds a node: both are internal nodes, yet the result at
    the key is the empty node and not the recursive merge of the two. *)
Lemma merge_invariant_counterexample :
  let base := Node [(py "a", Node [(py "x", Leaf (py "1"))])] in
  let overrides := Node [(py "a", Node [])] in
  exists r,
    fix_ka_translation.deep_update base overrides = Ok r /\
    tree_lookup base (py "a") = Some (Node [(py "x", Leaf (py "1"))]) /\
    tree_lookup overrides (py "a") = Some (Node []) /\
    ~ (exists y,
         fix_ka_translation.deep_update (Node [(py "x", Leaf (py "1"))]) (Node []) = Ok y /\
         tree_lookup r (py "a") = Some y).
Proof.
  intros base overrides. exists (Node [(py "a", Node [])]).
  split; [reflexivity|]. split; [reflexivity|]. split; [reflexivity|].
  intros (y & Hy & Hr). simpl in Hy, Hr. congruence.
Qed.

(** C4, amended.  After a successful merge every key of the overrides is a
    key of the result; at a key where the base holds a node and the
    overrides a non-empty node the result holds the recursive merge of the
    two; at every other key the two trees share (the overrides holding a
    leaf or an empty node) the result holds the value of the overrides. *)
Theorem merge_invariant (base overrides r : Tree) :
  wf_tree overrides = true ->
  fix_ka_translation.deep_update base overrides = Ok r ->
  forall k v, tree_lookup overrides k = Some v ->
    (exists y, tree_lookup r k = Some y) /\
    (forall b, tree_lookup base k = Some (Node b) ->
       nonempty_node v = true ->
       exists y, fix_ka_translation.deep_update (Node b) v = Ok y /\
                 tree_lookup r k = Some y) /\
    (forall bv, tree_lookup base k = Some bv ->
       isinstance_dict bv && nonempty_node v = false ->
       tree_lookup r k = Some v).
Proof.
  intros Hwf H k v Hk.
  destruct (fix_spec _ _ _ Hwf H) as [Hin _].
  destruct (Hin k v Hk) as (x & Hg & Hget). unfold merge_value in Hg.
  split; [exists x; exact Hget|]. split.
  - intros b Hb Hne. exists x. split; [|exact Hget].
    rewrite Hb, Hne in Hg. exact Hg.
  - intros bv Hb Hcol. rewrite Hb in Hg.
    destruct (nonempty_node v) eqn:Hne.
    + destruct bv as [s|b]; [|simpl in Hcol; discriminate].
      destruct (fix_Leaf_base _ _ _ (wf_tree_lookup _ _ _ Hwf Hk) Hg) as [-> _].
      discriminate.
    + injection Hg as <-. exact Hget.
Qed.

Lemma merge_invariant_witness :
  let base := Node [(py "a", Node [(py "x", Leaf (py "1"))]); (py "t", Leaf (py "u"))] in
  let overrides := Node [(py "a", Node [(py "y", Leaf (py "2"))]); (py "t", Node [])] in
  let r := Node [(py "a", Node [(py "x", Leaf (py "1")); (py "y", Leaf (py "2"))]);
                 (py "t", Node [])] in
  wf_tree overrides = true /\
  fix_ka_translation.deep_update base overrides = Ok r /\
  tree_lookup overrides (py "t") = Some (Node []) /\
  tree_lookup r (py "t") = Some (Node []).
Proof.
  intros base overrides r.
  split; [reflexivity|]. split; [reflexivity|]. split; [reflexivity|].
  refine (proj2 (proj2 (merge_invariant base overrides r _ _ (py "t") _ _))
            (Leaf (py "u")) _ _); reflexivity.
Defined.

(** C5, as stated, fails where the base holds a leaf at the key: the leaf is
    not taken for an empty node, the merge raises and stores nothing. *)
Lemma merge_leaf_under_node_counterexample :
  let base := Node [(py "a", Leaf (py "x"))] in
  let value := Node [(py "b", Leaf (py "c"))] in
  let overrides := Node [(py "a", value)] in
  tree_lookup overrides (py "a") = Some value /\
  nonempty_node value = true /\
  tree_lookup base (py "a") = Some (Leaf (py "x")) /\
  fix_ka_translation.deep_update (Node []) value = Ok value /\
  fix_ka_translation.deep_update base overrides = Raise TypeError.
Proof. repeat split. Qed.

(** C5, amended.  For a key [k] at which the overrides hold a non-empty
    node, a successful merge stores at [k] the recursive merge of that node
    against the value of the base at [k], a missing value being taken for an
    empty node; when the base holds a leaf at [k] the merge raises. *)
Theorem merge_nonempty_node (base overrides : Tree) (k : str) (v : Tree) :
  wf_tree overrides = true ->
  tree_lookup overrides k = Some v ->
  nonempty_node v = true ->
  (forall r, fix_ka_translation.deep_update base overrides = Ok r ->
     exists y,
       fix_ka_translation.deep_update (default_node (tree_lookup base k)) v = Ok y /\
       tree_lookup r k = Some y) /\
  (forall s, tree_lookup base k = Some (Leaf s) ->
     exists e, fix_ka_translation.deep_update base overrides = Raise e).
Proof.
  intros Hwf Hk Hne.
  assert (forall r, fix_ka_translation.deep_update base overrides = Ok r ->
            exists y,
              fix_ka_translation.deep_update (default_node (tree_lookup base k)) v = Ok y /\
              tree_lookup r k = Some y) as Hok.
  { intros r H. destruct (fix_spec _ _ _ Hwf H) as [Hin _].
    destruct (Hin k v Hk) as (x & Hg & Hget).
    unfold merge_value in Hg. rewrite Hne in Hg. exists x; split; assumption. }
  split; [exact Hok|].
  intros s Hs.
  destruct (fix_ka_translation.deep_update base overrides) as [r|e] eqn:H;
    [|exists e; reflexivity].
  destruct (Hok r eq_refl) as (y & Hy & _). rewrite Hs in Hy. cbn [default_node] in Hy.
  destruct (fix_Leaf_base _ _ _ (wf_tree_lookup _ _ _ Hwf Hk) Hy) as [-> _].
  discriminate.
Qed.

Lemma merge_nonempty_node_witness :
  let base := Node [(py "t", Leaf (py "u"))] in
  let value := Node [(py "b", Leaf (py "c"))] in
  let overrides := Node [(py "a", value)] in
  wf_tree overrides = true /\
  tree_lookup overrides (py "a") = Some value /\
  nonempty_node value = true /\
  exists y,
    fix_ka_translation.deep_update (default_node (tree_lookup base (py "a"))) value = Ok y /\
    tree_lookup (Node [(py "t", Leaf (py "u")); (py "a", value)]) (py "a") = Some y.
Proof.
  intros base value overrides.
  split; [reflexivity|]. split; [reflexivity|]. split; [reflexivity|].
  refine (proj1 (merge_nonempty_node base overrides (py "a") value _ _ _) _ _);
    reflexivity.
Defined.

(** ** Claims on both merges *)

(** C6, as stated, fails for the [deep_update] of rehydrate_ka.py: an empty
    node of the overrides is merged like any other node, and the content the
    base has at the key stays. *)
Lemma merge_empty_node_counterexample :
  let base := Node [(py "a", Node [(py "x", Leaf (py "1"))])] in
  let overrides := Node [(py "a", Node [])] in
  exists r,
    tree_lookup overrides (py "a") = Some (Node []) /\
    rehydrate_ka.deep_update base overrides = Ok r /\
    tree_lookup r (py "a") <> Some (Node []).
Proof.
  intros base overrides. exists base.
  split; [reflexivity|]. split; [reflexivity|]. simpl. discriminate.
Qed.

(** C6, amended.  For a key [k] at which the overrides hold an empty node,
    the [deep_update] of fix_ka_translation.py binds [k] to that empty node,
    whatever the base had there; the [deep_update] of rehydrate_ka.py keeps
    what the base had at [k], and binds [k] to an empty node only when the
    base had nothing there. *)
Theorem merge_empty_node (base overrides r : Tree) (k : str) :
  wf_tree overrides = true ->
  tree_lookup overrides k = Some (Node []) ->
  (fix_ka_translation.deep_update base overrides = Ok r ->
     tree_lookup r k = Some (Node [])) /\
  (rehydrate_ka.deep_update base overrides = Ok r ->
     tree_lookup r k = Some (default_node (tree_lookup base k))).
Proof.
  intros Hwf Hk. split; intros H.
  - destruct (fix_spec _ _ _ Hwf H) as [Hin _].
    destruct (Hin k _ Hk) as (x & Hg & Hget).
    injection Hg as <-. exact Hget.
  - destruct (rehydrate_spec _ _ _ Hwf H) as [Hin _].
    destruct (Hin k _ Hk) as (x & Hg & Hget).
    injection Hg as <-. exact Hget.
Qed.

Lemma merge_empty_node_witness :
  let base := Node [(py "a", Node [(py "x", Leaf (py "1"))])] in
  let overrides := Node [(py "a", Node [])] in
  wf_tree overrides = true /\
  tree_lookup overrides (py "a") = Some (Node []) /\
  fix_ka_translation.deep_update base overrides = Ok overrides /\
  tree_lookup overrides (py "a") = Some (Node []).
Proof.
  intros base overrides.
  split; [reflexivity|]. split; [reflexivity|]. split; [reflexivity|].
  refine (proj1 (merge_empty_node base overrides overrides (py "a") _ _) _);
    reflexivity.
Defined.

(** C2, as stated, fails: with a leaf in the base and a non-empty node in
    the overrides at the same key, both [deep_update] raise, with frames to
    spare as under the recursion limit of the interpreter. *)
Lemma merge_total_counterexample :
  let base := Node [(py "a", Leaf (py "x"))] in
  let overrides := Node [(py "a", Node [(py "b", Leaf (py "c"))])] in
  wf_tree base = true /\ wf_tree overrides = true /\
  fix_ka_translation.deep_update base overrides = Raise TypeError /\
  rehydrate_ka.deep_update base overrides = Raise TypeError /\
  fix_ka_translation.deep_update_within 1000 base overrides = Raise TypeError /\
  rehydrate_ka.deep_update_within 1000 base overrides = Raise TypeError.
Proof. repeat split. Qed.

(** C2, amended.  For well-formed overrides and [frames] calls left by the
    recursion limit, each of the two merges completes without an error
    exactly when the overrides hold no non-empty node at a place where the
    base holds a leaf ([mergeable]) and the nesting of the dicts the merge
    recurses into takes no more than [frames] calls ([frames_needed]).
    When the trees are not mergeable and the frames suffice, the merge
    raises [AttributeError] or [TypeError]; when they are mergeable and the
    frames do not suffice, it raises [RecursionError]; it raises nothing
    but these three. *)
Theorem merge_total (frames : nat) (base overrides : Tree) :
  wf_tree overrides = true ->
  ((exists r, fix_ka_translation.deep_update_within frames base overrides = Ok r) <->
   mergeable base overrides = true /\
   frames_needed nonempty_node overrides <= frames) /\
  ((exists r, rehydrate_ka.deep_update_within frames base overrides = Ok r) <->
   mergeable base overrides = true /\
   frames_needed isinstance_dict overrides <= frames) /\
  (mergeable base overrides = false ->
   (frames_needed nonempty_node overrides <= frames ->
    fix_ka_translation.deep_update_within frames base overrides = Raise AttributeError \/
    fix_ka_translation.deep_update_within frames base overrides = Raise TypeError) /\
   (frames_needed isinstance_dict overrides <= frames ->
    rehydrate_ka.deep_update_within frames base overrides = Raise AttributeError \/
    rehydrate_ka.deep_update_within frames base overrides = Raise TypeError)) /\
  (mergeable base overrides = true ->
   (frames < frames_needed nonempty_node overrides ->
    fix_ka_translation.deep_update_within frames base overrides = Raise RecursionError) /\
   (frames < frames_needed isinstance_dict overrides ->
    rehydrate_ka.deep_update_within frames base overrides = Raise RecursionError)) /\
  (forall e,
     fix_ka_translation.deep_update_within frames base overrides = Raise e \/
     rehydrate_ka.deep_update_within frames base overrides = Raise e ->
     e = AttributeError \/ e = TypeError \/ e = RecursionError).
Proof.
  intros Hwf.
  destruct (fix_within_outcome frames base overrides Hwf)
    as (F1 & _ & F3 & F4 & F5).
  destruct (rehydrate_within_outcome frames base overrides Hwf)
    as (R1 & _ & R3 & R4 & R5).
  split; [exact F1|]. split; [exact R1|]. split; [|split].
  - intros Hm. split; [exact (F3 Hm) | exact (R3 Hm)].
  - intros Hm. split; [exact (F4 Hm) | exact (R4 Hm)].
  - intros e [H|H]; [exact (F5 e H) | exact (R5 e H)].
Qed.

Lemma merge_total_witness :
  let base := Node [(py "a", Node [(py "x", Leaf (py "1"))]); (py "t", Leaf (py "u"))] in
  let overrides := Node [(py "a", Node [(py "y", Leaf (py "2"))]); (py "t", Node [])] in
  wf_tree overrides = true /\ mergeable base overrides = true /\
  frames_needed nonempty_node overrides = 2 /\
  frames_needed isinstance_dict overrides = 2 /\
  (exists r, fix_ka_translation.deep_update_within 2 base overrides = Ok r) /\
  (exists r, rehydrate_ka.deep_update_within 2 base overrides = Ok r) /\
  fix_ka_translation.deep_update_within 1 base overrides = Raise RecursionError /\
  rehydrate_ka.deep_update_within 1 base overrides = Raise RecursionError.
Proof.
  intros base overrides.
  split; [reflexivity|]. split; [reflexivity|].
  split; [reflexivity|]. split; [reflexivity|].
  split; [|split; [|split]].
  - apply (proj2 (proj1 (merge_total 2 base overrides eq_refl))).
    split; [reflexivity | apply Nat.leb_le; reflexivity].
  - apply (proj2 (proj1 (proj2 (merge_total 2 base overrides eq_refl)))).
    split; [reflexivity | apply Nat.leb_le; reflexivity].
  - apply (proj1 (proj1 (proj2 (proj2 (proj2 (merge_total 1 base overrides eq_refl))))
                    eq_refl)).
    apply Nat.ltb_lt; reflexivity.
  - apply (proj2 (proj1 (proj2 (proj2 (proj2 (merge_total 1 base overrides eq_refl))))
                    eq_refl)).
    apply Nat.ltb_lt; reflexivity.
Defined.

(** C9, as stated, fails for the [deep_update] of fix_ka_translation.py: a
    key of the base below a node that collides with an empty node of the
    overrides is deleted. *)
Lemma merge_keeps_base_keys_counterexample :
  let base := Node [(py "a", Node [(py "x", Leaf (py "1"))])] in
  let overrides := Node [(py "a", Node [])] in
  let p := [py "a"; py "x"] in
  exists r,
    fix_ka_translation.deep_update base overrides = Ok r /\
    lookup_path base p = Some (Leaf (py "1")) /\
    node_collisions isinstance_dict base overrides p = true /\
    lookup_path r p = None.
Proof.
  intros base overrides p. exists (Node [(py "a", Node [])]).
  repeat split.
Qed.

(** C9, amended.  A successful merge deletes no key of the base at a level
    reached through collisions of a node of the base with a node of the
    overrides that the merge recurses into: a non-empty node for the
    [deep_update] of fix_ka_translation.py, any node for the one of
    rehydrate_ka.py.  Such a key is still in the result, with its old value
    unless the overrides contain that key. *)
Theorem merge_keeps_base_keys (base overrides r : Tree) (p : list str) (x : Tree) :
  wf_tree overrides = true ->
  p <> [] ->
  lookup_path base p = Some x ->
  (fix_ka_translation.deep_update base overrides = Ok r ->
   node_collisions nonempty_node base overrides p = true ->
   exists y, lookup_path r p = Some y /\
             (lookup_path overrides p = None -> y = x)) /\
  (rehydrate_ka.deep_update base overrides = Ok r ->
   node_collisions isinstance_dict base overrides p = true ->
   exists y, lookup_path r p = Some y /\
             (lookup_path overrides p = None -> y = x)).
Proof.
  intros Hwf Hp Hx. split; intros H Hcol.
  - exact (merge_keeps nonempty_node fix_ka_translation.deep_update
             fix_du_Leaf fix_du_Node p Hp base overrides r x Hwf H Hx Hcol).
  - exact (merge_keeps isinstance_dict rehydrate_ka.deep_update
             rehydrate_du_Leaf rehydrate_du_Node p Hp base overrides r x Hwf H Hx Hcol).
Qed.

Lemma merge_keeps_base_keys_witness :
  let base := Node [(py "a", Node [(py "x", Leaf (py "1"))]); (py "t", Leaf (py "u"))] in
  let overrides := Node [(py "a", Node [(py "y", Leaf (py "2"))])] in
  let r := Node [(py "a", Node [(py "x", Leaf (py "1")); (py "y", Leaf (py "2"))]);
                 (py "t", Leaf (py "u"))] in
  let p := [py "a"; py "x"] in
  wf_tree overrides = true /\ p <> [] /\
  lookup_path base p = Some (Leaf (py "1")) /\
  fix_ka_translation.deep_update base overrides = Ok r /\
  node_collisions nonempty_node base overrides p = true /\
  exists y, lookup_path r p = Some y /\
            (lookup_path overrides p = None -> y = Leaf (py "1")).
Proof.
  intros base overrides r p.
  split; [reflexivity|]. split; [discriminate|]. split; [reflexivity|].
  split; [reflexivity|]. split; [reflexivity|].
  refine (proj1 (merge_keeps_base_keys base overrides r p (Leaf (py "1")) _ _ _) _ _);
    try reflexivity; discriminate.
Defined.

(** ** update_translations.py *)

Lemma dict_set_set (m : dict) (k : str) (v w : Tree) :
  dict_set (dict_set m k v) k w = dict_set m k w.
Proof.
  induction m as [|[k' v'] m IH]; simpl.
  - rewrite str_eqb_refl; reflexivity.
  - destruct (str_eqb k' k) eqn:E; simpl; rewrite E; [reflexivity|].
    rewrite IH; reflexivity.
Qed.

Lemma update_inner_loop (key : str) (sub_items : list (str * Tree)) :
  forall (m : dict) (c : Tree),
    dict_get m key = Some c ->
    for_each
      (fun (data : Tree) (skv : str * Tree) =>
         let (sub_key, sub_value) := skv in
         inner <- py_getitem data key ;;
         inner' <- py_setitem inner sub_key sub_value ;;
         py_setitem data key inner')
      sub_items (Node m)
    = x <- for_each assign_item sub_items c ;; Ok (Node (dict_set m key x)).
Proof.
  induction sub_items as [|[sk sv] rest IH]; intros m c Hc.
  - simpl. rewrite (dict_set_same _ _ _ Hc). reflexivity.
  - cbn [for_each]. unfold assign_item at 1. cbn [fst snd py_getitem].
    rewrite Hc. cbn [bind].
    destruct c as [l|b]; [reflexivity|]. cbn [py_setitem bind].
    rewrite (IH (dict_set m key (Node (dict_set b sk sv))) _ (dict_get_set_eq _ _ _)).
    destruct (for_each assign_item rest (Node (dict_set b sk sv))) as [x|e];
      [|reflexivity].
    cbn [bind]. rewrite dict_set_set. reflexivity.
Qed.

Lemma assign_item_Node (m : dict) (k : str) (v : Tree) :
  assign_item (Node m) (k, v)
  = x <- (fun (_ : option Tree) (w : Tree) => Ok w) (dict_get m k) v ;;
    Ok (Node (dict_set m k x)).
Proof. reflexivity. Qed.

Lemma update_json_file_Node (m : dict) (new_items : list (str * Tree)) (r : Tree) :
  NoDup (keys new_items) ->
  update_translations.update_json_file (Node m) (Node new_items) = Ok r ->
  exists m', r = Node m' /\
    (forall k v, In (k, v) new_items ->
       exists x, update_value (dict_get m k) v = Ok x /\ dict_get m' k = Some x) /\
    (forall k, ~ In k (keys new_items) -> dict_get m' k = dict_get m k).
Proof.
  intros Hn H. unfold update_translations.update_json_file in H.
  cbn [py_items bind] in H.
  refine (set_loop_ok update_value _ _ new_items Hn m r H).
  intros m0 k v. cbn [py_contains].
  destruct (dict_get m0 k) as [c|] eqn:Hc; [|reflexivity].
  destruct v as [l|sub_items]; [reflexivity|].
  cbn [isinstance_dict py_items bind update_value].
  apply update_inner_loop. exact Hc.
Qed.



(** ** The reference parser: the fuel is enough *)

Lemma skip_ws_length (s : str) : List.length (skip_ws s) <= List.length s.
Proof.
  induction s as [|c s IH]; simpl; [lia|].
  destruct (is_json_ws c); simpl; lia.
Qed.

Lemma decode_uXXXX_length (s : str) (u : N) (rest : str) :
  decode_uXXXX s = Some (u, rest) -> List.length s = 4 + List.length rest.
Proof.
  destruct s as [|a [|b [|c [|d r]]]]; simpl; try discriminate.
  destruct (hex_digit a), (hex_digit b), (hex_digit c), (hex_digit d);
    try discriminate.
  intros [= _ <-]. reflexivity.
Qed.

Lemma option_cons_Some (c : char) (r : option (str * str)) (v rest : str) :
  option_cons c r = Some (v, rest) -> exists v', r = Some (v', rest).
Proof.
  destruct r as [[v' rest']|]; simpl; [|discriminate].
  intros [= _ <-]. exists v'; reflexivity.
Qed.

Lemma scanstring_length (fuel : nat) :
  forall s v rest, scanstring fuel s = Some (v, rest) ->
                   List.length rest < List.length s.
Proof.
  induction fuel as [|fuel IH]; intros s v rest; cbn [scanstring]; [discriminate|].
  destruct s as [|c s1]; [discriminate|].
  destruct (N.eqb c dquote); [intros [= _ <-]; simpl; lia|].
  destruct (N.eqb c backslash).
  - destruct s1 as [|e s2]; [discriminate|].
    destruct (N.eqb e 117).
    + destruct (decode_uXXXX s2) as [[uni s3]|] eqn:E1; [|discriminate].
      apply decode_uXXXX_length in E1.
      destruct (N.leb 55296 uni && N.leb uni 56319 && str_startswith s3 [backslash; 117%N]).
      * destruct (decode_uXXXX (skipn 2 s3)) as [[uni2 s5]|] eqn:E2; [|discriminate].
        apply decode_uXXXX_length in E2.
        pose proof (length_skipn 2 s3) as Hs.
        destruct (N.leb 56320 uni2 && N.leb uni2 57343); intros H;
          apply option_cons_Some in H as [v' H]; apply IH in H; simpl; lia.
      * intros H; apply option_cons_Some in H as [v' H]; apply IH in H; simpl; lia.
    + destruct (simple_escape e); [|discriminate].
      intros H; apply option_cons_Some in H as [v' H]; apply IH in H; simpl; lia.
  - destruct (N.ltb c 32); [discriminate|].
    intros H; apply option_cons_Some in H as [v' H]; apply IH in H; simpl; lia.
Qed.

Lemma parse_fuel (fuel : nat) :
  (forall s, List.length s < fuel ->
     (forall fuel', List.length s < fuel' -> parse_value fuel s = parse_value fuel' s) /\
     (forall t rest, parse_value fuel s = Some (t, rest) ->
                     List.length rest < List.length s)) /\
  (forall s pairs, List.length s < fuel ->
     (forall fuel', List.length s < fuel' ->
        parse_members fuel s pairs = parse_members fuel' s pairs) /\
     (forall t rest, parse_members fuel s pairs = Some (t, rest) ->
                     List.length rest < List.length s)).
Proof.
  induction fuel as [|fuel [IHv IHm]]; [split; intros; lia|].
  split.
  - intros s Hs. split.
    + intros [|fuel'] Hs'; [lia|]. cbn [parse_value parse_members].
      destruct s as [|c s1]; [reflexivity|].
      destruct (N.eqb c dquote); [reflexivity|].
      destruct (N.eqb c lbrace); [|reflexivity].
      pose proof (skip_ws_length s1) as Hw.
      destruct (skip_ws s1) as [|c2 s3]; [reflexivity|].
      destruct (N.eqb c2 rbrace); [reflexivity|].
      destruct (N.eqb c2 dquote); [|reflexivity].
      simpl in *. apply IHm; lia.
    + intros t rest. cbn [parse_value parse_members].
      destruct s as [|c s1]; [discriminate|].
      destruct (N.eqb c dquote).
      * destruct (scanstring (List.length s1) s1) as [[v r]|] eqn:E; [|discriminate].
        apply scanstring_length in E. intros [= _ <-]. simpl; lia.
      * destruct (N.eqb c lbrace); [|discriminate].
        pose proof (skip_ws_length s1) as Hw.
        destruct (skip_ws s1) as [|c2 s3]; [discriminate|].
        destruct (N.eqb c2 rbrace); [intros [= _ <-]; simpl in *; lia|].
        destruct (N.eqb c2 dquote); [|discriminate].
        intros H. simpl in *. apply IHm in H; lia.
  - intros s pairs Hs.
    assert (forall fuel', List.length s < S fuel' ->
              (forall s0, List.length s0 < List.length s ->
                          parse_value fuel s0 = parse_value fuel' s0) /\
              (forall s0 p0, List.length s0 < List.length s ->
                          parse_members fuel s0 p0 = parse_members fuel' s0 p0)) as Hsame.
    { intros fuel' Hs'. split; intros; [apply IHv | apply IHm]; lia. }
    split.
    + intros [|fuel'] Hs'; [lia|]. cbn [parse_value parse_members].
      destruct (Hsame fuel' Hs') as [Hv Hm].
      destruct (scanstring (List.length s) s) as [[key s1]|] eqn:E; [|reflexivity].
      apply scanstring_length in E.
      pose proof (skip_ws_length s1) as Hw1.
      destruct (skip_ws s1) as [|c s2]; [reflexivity|].
      destruct (N.eqb c colon); [|reflexivity].
      pose proof (skip_ws_length s2) as Hw2. simpl in Hw1.
      rewrite <- Hv by lia.
      destruct (parse_value fuel (skip_ws s2)) as [[value s3]|] eqn:Ev; [|reflexivity].
      apply IHv in Ev; [|lia].
      pose proof (skip_ws_length s3) as Hw3.
      destruct (skip_ws s3) as [|c2 s4]; [reflexivity|].
      destruct (N.eqb c2 rbrace); [reflexivity|].
      destruct (N.eqb c2 comma); [|reflexivity].
      pose proof (skip_ws_length s4) as Hw4. simpl in Hw3.
      destruct (skip_ws s4) as [|c3 s5]; [reflexivity|].
      destruct (N.eqb c3 dquote); [|reflexivity].
      simpl in Hw4. apply Hm. lia.
    + intros t rest. cbn [parse_value parse_members].
      destruct (scanstring (List.length s) s) as [[key s1]|] eqn:E; [|discriminate].
      apply scanstring_length in E.
      pose proof (skip_ws_length s1) as Hw1.
      destruct (skip_ws s1) as [|c s2]; [discriminate|].
      destruct (N.eqb c colon); [|discriminate].
      pose proof (skip_ws_length s2) as Hw2. simpl in Hw1.
      destruct (parse_value fuel (skip_ws s2)) as [[value s3]|] eqn:Ev; [|discriminate].
      apply IHv in Ev; [|lia].
      pose proof (skip_ws_length s3) as Hw3.
      destruct (skip_ws s3) as [|c2 s4]; [discriminate|].
      destruct (N.eqb c2 rbrace); [intros [= _ <-]; simpl in *; lia|].
      destruct (N.eqb c2 comma); [|discriminate].
      pose proof (skip_ws_length s4) as Hw4. simpl in Hw3.
      destruct (skip_ws s4) as [|c3 s5]; [discriminate|].
      destruct (N.eqb c3 dquote); [|discriminate].
      simpl in Hw4. intros H. apply IHm in H; lia.
Qed.

(** The fuel [loads] gives its parser is enough: more fuel reads the same. *)
Lemma loads_fuel_enough (s : str) (fuel : nat) :
  List.length s < fuel ->
  parse_value fuel (skip_ws s) = parse_value (S (List.length s)) (skip_ws s).
Proof.
  intros H. pose proof (skip_ws_length s) as Hw.
  apply (proj1 (parse_fuel fuel)); lia.
Qed.

Lemma scanstring_fuel (fuel : nat) :
  forall fuel' s, List.length s <= fuel -> List.length s <= fuel' ->
                  scanstring fuel s = scanstring fuel' s.
Proof.
  induction fuel as [|fuel IH]; intros fuel' s Hs Hs'.
  - destruct s; [|simpl in Hs; lia]. destruct fuel'; reflexivity.
  - destruct fuel' as [|fuel'].
    + destruct s; [reflexivity | simpl in Hs'; lia].
    + cbn [scanstring].
      destruct s as [|c s1]; [reflexivity|]. simpl in Hs, Hs'.
      destruct (N.eqb c dquote); [reflexivity|].
      destruct (N.eqb c backslash).
      * destruct s1 as [|e s2]; [reflexivity|]. simpl in Hs, Hs'.
        destruct (N.eqb e 117).
        -- destruct (decode_uXXXX s2) as [[uni s3]|] eqn:E1; [|reflexivity].
           apply decode_uXXXX_length in E1.
           destruct (N.leb 55296 uni && N.leb uni 56319
                     && str_startswith s3 [backslash; 117%N]).
           ++ destruct (decode_uXXXX (skipn 2 s3)) as [[uni2 s5]|] eqn:E2;
                [|reflexivity].
              apply decode_uXXXX_length in E2.
              pose proof (length_skipn 2 s3) as Hk.
              destruct (N.leb 56320 uni2 && N.leb uni2 57343);
                f_equal; apply IH; lia.
           ++ f_equal; apply IH; lia.
        -- destruct (simple_escape e); [|reflexivity]. f_equal; apply IH; lia.
      * destruct (N.ltb c 32); [reflexivity|]. f_equal; apply IH; lia.
Qed.

(** ** The reference parser under the recursion limit *)

(** What the parser under the limit reads is what the parser reads, and it
    raises [JSONDecodeError] only where the parser refuses the text. *)
Lemma parse_within_agrees (fuel : nat) :
  forall depth,
    (forall s,
       stops_or_agrees _ (parse_value_within depth fuel s)
         (match parse_value fuel s with
          | Some x => Ok x
          | None => Raise JSONDecodeError
          end)) /\
    (forall s pairs,
       stops_or_agrees _ (parse_members_within depth fuel s pairs)
         (match parse_members fuel s pairs with
          | Some x => Ok x
          | None => Raise JSONDecodeError
          end)).
Proof.
  induction fuel as [|fuel IH]; intros depth.
  - split; intros; right; reflexivity.
  - split.
    + intros s. cbn [parse_value_within parse_value].
      destruct s as [|c s1]; [right; reflexivity|].
      destruct (N.eqb c dquote).
      * destruct (scanstring (List.length s1) s1) as [[v rest]|];
          [reflexivity | right; reflexivity].
      * destruct (N.eqb c lbrace); [|right; reflexivity].
        destruct depth as [|depth']; [left; reflexivity|].
        destruct (skip_ws s1) as [|c2 s3]; [right; reflexivity|].
        destruct (N.eqb c2 rbrace); [reflexivity|].
        destruct (N.eqb c2 dquote); [|right; reflexivity].
        apply (proj2 (IH depth')).
    + intros s pairs. cbn [parse_members_within parse_members].
      destruct (scanstring (List.length s) s) as [[key s1]|];
        [|right; reflexivity].
      destruct (skip_ws s1) as [|c s2]; [right; reflexivity|].
      destruct (N.eqb c colon); [|right; reflexivity].
      pose proof (proj1 (IH depth) (skip_ws s2)) as Hv.
      unfold stops_or_agrees in Hv.
      destruct (parse_value_within depth fuel (skip_ws s2)) as [[value s3]|e].
      * destruct (parse_value fuel (skip_ws s2)) as [x|]; [|discriminate].
        injection Hv as ->.
        destruct (skip_ws s3) as [|c2 s4]; [right; reflexivity|].
        destruct (N.eqb c2 rbrace); [reflexivity|].
        destruct (N.eqb c2 comma); [|right; reflexivity].
        destruct (skip_ws s4) as [|c3 s5]; [right; reflexivity|].
        destruct (N.eqb c3 dquote); [|right; reflexivity].
        apply (proj2 (IH depth)).
      * destruct Hv as [->|Hv]; [left; reflexivity|].
        destruct (parse_value fuel (skip_ws s2)) as [x|]; [discriminate|].
        injection Hv as ->. right. reflexivity.
Qed.

Lemma loads_within_agrees (depth : nat) (s : str) :
  stops_or_agrees Tree (loads_within depth s) (loads s).
Proof.
  unfold loads_within, loads.
  pose proof (proj1 (parse_within_agrees (S (List.length s)) depth) (skip_ws s))
    as H.
  unfold stops_or_agrees in H |- *.
  destruct (parse_value_within depth (S (List.length s)) (skip_ws s))
    as [[t rest]|e].
  - destruct (parse_value (S (List.length s)) (skip_ws s)) as [x|]; [|discriminate].
    injection H as ->.
    destruct (skip_ws rest); [reflexivity | right; reflexivity].
  - destruct H as [->|H]; [left; reflexivity|].
    destruct (parse_value (S (List.length s)) (skip_ws s)) as [x|]; [discriminate|].
    injection H as ->. right. reflexivity.
Qed.

(** ** The recovery chain of rehydrate_ka.py *)

Import rehydrate_ka.

Lemma fix_braces_balanced (s : str) :
  str_count s lbrace = str_count s rbrace -> fix_braces s = s.
Proof.
  intros E. unfold fix_braces. rewrite E, Z.sub_diag. reflexivity.
Qed.

Lemma loads_raises (s : str) (e : exn) : loads s = Raise e -> e = JSONDecodeError.
Proof.
  unfold loads.
  destruct (parse_value (S (List.length s)) (skip_ws s)) as [[t rest]|];
    [destruct (skip_ws rest)|]; congruence.
Qed.

Section LoaderFacts.

Variable json_loads : str -> result Tree.

Lemma load_lenient_balanced_parse (ka_content : str) (en_data t : Tree) :
  json_loads (fix_braces ka_content) = Ok t ->
  load_lenient json_loads ka_content en_data = Ok t.
Proof. intros H. unfold load_lenient. rewrite H. reflexivity. Qed.

Lemma load_lenient_fallback (ka_content : str) (en_data : Tree) :
  json_loads (fix_braces ka_content) = Raise JSONDecodeError ->
  (exists e, json_loads (strip_trailing_commas (fix_braces ka_content)) = Raise e) ->
  load_lenient json_loads ka_content en_data = Ok en_data.
Proof.
  intros H1 [e H2]. unfold load_lenient. rewrite H1, H2. reflexivity.
Qed.

Lemma load_lenient_total (ka_content : str) (en_data : Tree) :
  raises_only_JSONDecodeError json_loads ->
  exists t, load_lenient json_loads ka_content en_data = Ok t.
Proof.
  intros Hc. unfold load_lenient.
  destruct (json_loads (fix_braces ka_content)) as [t|e] eqn:H1.
  - exists t; reflexivity.
  - rewrite (Hc _ _ H1).
    destruct (json_loads (strip_trailing_commas (fix_braces ka_content))) as [t|e'].
    + exists t; reflexivity.
    + exists en_data; reflexivity.
Qed.

End LoaderFacts.

(** The chain of the script and the state machine of the spec agree on
    every text that the parser refuses as it is, and on every text that holds
    as many opening as closing braces. *)
Lemma load_lenient_refines_spec
  (json_loads : str -> result Tree) (raw_text : str) (fallback : Tree) :
  raises_only_JSONDecodeError json_loads ->
  (exists e, json_loads raw_text = Raise e) \/
  str_count raw_text lbrace = str_count raw_text rbrace ->
  load_lenient json_loads raw_text fallback
  = Ok (load_lenient_spec json_loads raw_text fallback).
Proof.
  intros Hc Hcase. unfold load_lenient, load_lenient_spec.
  assert (forall s, match json_loads s with
                    | Ok t => True
                    | Raise e => e = JSONDecodeError
                    end) as Hc'.
  { intros s. destruct (json_loads s) eqn:E; [exact I | exact (Hc _ _ E)]. }
  destruct Hcase as [[e He] | Hbal].
  - rewrite He. pose proof (Hc' (fix_braces raw_text)) as H1.
    destruct (json_loads (fix_braces raw_text)); [reflexivity|]. subst.
    destruct (json_loads (strip_trailing_commas (fix_braces raw_text)));
      reflexivity.
  - rewrite (fix_braces_balanced _ Hbal). pose proof (Hc' raw_text) as H1.
    destruct (json_loads raw_text); [reflexivity|]. subst.
    destruct (json_loads (strip_trailing_commas raw_text)); reflexivity.
Qed.

(** C1, as stated, fails: the chain has no parse of the text as it is, the
    braces are counted and evened out first, also those inside a string.
    The well-formed text [{ "a": "{" }] gets one more closing brace, is then
    refused twice, and the loader returns the fallback. *)
Lemma load_lenient_well_formed_counterexample :
  let S := text "{'a': '{'}" in
  let fallback := Leaf (py "fallback") in
  loads S = Ok (Node [(py "a", Leaf (py "{"))]) /\
  fix_braces S = text "{'a': '{'}}" /\
  load_lenient loads S fallback = Ok fallback /\
  load_lenient_spec loads S fallback = Node [(py "a", Leaf (py "{"))].
Proof. repeat split. Qed.

(** C1, amended.  For every text [S] that the parser accepts and that holds
    as many opening as closing braces, and for every fallback, the loader
    returns the tree the parser reads from [S]: the first parse of the
    chain, on the text with its braces evened out, is then the parse of [S]
    itself. *)
Theorem load_lenient_well_formed
  (json_loads : str -> result Tree) (S : str) (fallback t : Tree) :
  json_loads S = Ok t ->
  str_count S lbrace = str_count S rbrace ->
  load_lenient json_loads S fallback = Ok t.
Proof.
  intros Hparse Hbal. apply load_lenient_balanced_parse.
  rewrite (fix_braces_balanced _ Hbal). exact Hparse.
Qed.

Lemma load_lenient_well_formed_witness :
  let S := text "{'a': {'b': '{{count}} c'}}" in
  let t := Node [(py "a", Node [(py "b", Leaf (py "{{count}} c"))])] in
  loads S = Ok t /\
  str_count S lbrace = str_count S rbrace /\
  load_lenient loads S (Node []) = Ok t.
Proof.
  intros S t. split; [reflexivity|]. split; [reflexivity|].
  apply (load_lenient_well_formed loads S (Node []) t); reflexivity.
Defined.

(** C3, as stated, fails: the first handler of the chain catches
    [json.JSONDecodeError] only, and the decoder raises [RecursionError] on a
    text whose objects are nested deeper than the interpreter allows.  The
    text of 1001 nested objects is a JSON document with its braces balanced;
    with a decoder that enters 1000 objects the first parse raises
    [RecursionError], which leaves the loader. *)
Lemma load_lenient_never_raises_counterexample :
  let raw_text := nested_object 1001 (text "'x'") in
  let fallback := Node [(py "title", Leaf (py "Blog"))] in
  (exists t, loads raw_text = Ok t) /\
  fix_braces raw_text = raw_text /\
  loads_within 1000 raw_text = Raise RecursionError /\
  load_lenient (loads_within 1000) raw_text fallback = Raise RecursionError.
Proof.
  intros raw_text fallback.
  split; [eexists; vm_compute; reflexivity|].
  split; [vm_compute; reflexivity|].
  split; vm_compute; reflexivity.
Qed.

(** C3, amended.  The loader returns a tree exactly when the first parse of
    the chain, the parse of the text with its braces evened out, returns or
    raises [JSONDecodeError]; an exception of another kind raised by that
    parse leaves the loader as it is, and the loader raises nothing else,
    whatever the second parse raises.  When the first parse raises
    [JSONDecodeError] and the parse of the text without its trailing commas
    raises too, the tree returned is the fallback itself. *)
Theorem load_lenient_never_raises
  (json_loads : str -> result Tree) (raw_text : str) (fallback : Tree) :
  ((exists t, load_lenient json_loads raw_text fallback = Ok t) <->
   (forall e, json_loads (fix_braces raw_text) = Raise e -> e = JSONDecodeError)) /\
  (forall e, load_lenient json_loads raw_text fallback = Raise e <->
             json_loads (fix_braces raw_text) = Raise e /\ e <> JSONDecodeError) /\
  (json_loads (fix_braces raw_text) = Raise JSONDecodeError ->
   (exists e, json_loads (strip_trailing_commas (fix_braces raw_text)) = Raise e) ->
   load_lenient json_loads raw_text fallback = Ok fallback).
Proof.
  split; [|split].
  - unfold load_lenient.
    destruct (json_loads (fix_braces raw_text)) as [t|e] eqn:H1.
    + split; [intros _ e; discriminate | intros _; exists t; reflexivity].
    + destruct e;
        try (split; [intros [t Ht]; discriminate Ht
                    | intros He; specialize (He _ eq_refl); discriminate He]).
      split; [intros _ e [= <-]; reflexivity|]. intros _.
      destruct (json_loads (strip_trailing_commas (fix_braces raw_text)))
        as [t|e'];
        [exists t | exists fallback]; reflexivity.
  - intros e. unfold load_lenient.
    destruct (json_loads (fix_braces raw_text)) as [t|e1] eqn:H1.
    + split; [discriminate | intros [H _]; discriminate H].
    + destruct e1;
        try (split; [intros [= <-]; split; [reflexivity | discriminate]
                    | intros [[= <-] _]; reflexivity]).
      destruct (json_loads (strip_trailing_commas (fix_braces raw_text)));
        (split; [discriminate | intros [[= <-] Hne]; exfalso; apply Hne; reflexivity]).
  - intros H1 H2. apply load_lenient_fallback; assumption.
Qed.

Lemma load_lenient_never_raises_witness :
  let raw_text := py "not json at all {{{" in
  let fallback := Node [(py "title", Leaf (py "Blog"))] in
  loads (fix_braces raw_text) = Raise JSONDecodeError /\
  (exists e, loads (strip_trailing_commas (fix_braces raw_text)) = Raise e) /\
  load_lenient loads raw_text fallback = Ok fallback.
Proof.
  intros raw_text fallback.
  split; [reflexivity|].
  split; [exists JSONDecodeError; reflexivity|].
  apply (proj2 (proj2 (load_lenient_never_raises loads raw_text fallback)));
    [reflexivity | exists JSONDecodeError; reflexivity].
Defined.

(** The repairs of the chain on the sample texts of the spec. *)
Example load_lenient_brace_repair :
  load_lenient loads (text "{'a': 'b'") (Node []) = loads (text "{'a': 'b'}").
Proof. reflexivity. Qed.

Example load_lenient_trailing_comma_repair :
  load_lenient loads (text "{'a': 'b',}") (Node []) = loads (text "{'a': 'b'}").
Proof. reflexivity. Qed.

(** * Further properties of the merges *)

(** ** Keys and their order *)

Lemma mem_key_In (k : str) (ks : list str) : mem_key k ks = true <-> In k ks.
Proof.
  unfold mem_key. rewrite existsb_exists. split.
  - intros (k' & Hin & E). apply str_eqb_eq in E. subst k'. exact Hin.
  - intros Hin. exists k. split; [exact Hin | apply str_eqb_refl].
Qed.

Lemma mem_key_false (k : str) (ks : list str) : mem_key k ks = false <-> ~ In k ks.
Proof.
  rewrite <- mem_key_In. destruct (mem_key k ks); split; congruence.
Qed.

Lemma str_eqb_sym (a b : str) : str_eqb a b = str_eqb b a.
Proof.
  destruct (str_eqb a b) eqn:E.
  - apply str_eqb_eq in E. subst. symmetry. apply str_eqb_refl.
  - apply str_eqb_neq in E. symmetry. apply str_eqb_neq. congruence.
Qed.

Lemma keys_dict_set (m : dict) (k : str) (v : Tree) :
  keys (dict_set m k v) = if mem_key k (keys m) then keys m else keys m ++ [k].
Proof.
  unfold keys, mem_key. induction m as [|[k' v'] m IH]; [reflexivity|].
  simpl. rewrite (str_eqb_sym k k').
  destruct (str_eqb k' k); simpl; [reflexivity|].
  rewrite IH. destruct (existsb (str_eqb k) (map fst m)); reflexivity.
Qed.

Lemma fresh_keys_skip (ks new : list str) (k : str) :
  ~ In k new -> fresh_keys (ks ++ [k]) new = fresh_keys ks new.
Proof.
  intros Hk. unfold fresh_keys. apply filter_ext_in. intros a Ha.
  f_equal. unfold mem_key. rewrite existsb_app. cbn [existsb].
  destruct (str_eqb a k) eqn:E; [|rewrite !orb_false_r; reflexivity].
  apply str_eqb_eq in E. subst a. contradiction.
Qed.

Lemma NoDup_keys_dict_set (m : dict) (k : str) (v : Tree) :
  NoDup (keys m) -> NoDup (keys (dict_set m k v)).
Proof.
  intros Hn. rewrite keys_dict_set. destruct (mem_key k (keys m)) eqn:E; [exact Hn|].
  apply mem_key_false in E. apply NoDup_app; [exact Hn | repeat constructor; intros [] |].
  intros a Ha [<-|[]]. contradiction.
Qed.

Section SetLoopKeys.

Variable g : option Tree -> Tree -> result Tree.
Variable body : Tree -> str * Tree -> result Tree.

Hypothesis body_Node : forall m k v,
  body (Node m) (k, v) = x <- g (dict_get m k) v ;; Ok (Node (dict_set m k x)).

(** The keys the base had keep their places; the keys it gets go after
    them, in the order of the loop. *)
Lemma set_loop_keys (todo : list (str * Tree)) :
  NoDup (keys todo) ->
  forall m m', for_each body todo (Node m) = Ok (Node m') ->
               keys m' = keys m ++ fresh_keys (keys m) (keys todo).
Proof.
  induction todo as [|[k v] todo IH]; intros Hn m m'.
  - cbn. intros [= <-]. rewrite app_nil_r. reflexivity.
  - inversion Hn as [|? ? Hk Hn']; subst.
    cbn [for_each]. rewrite body_Node.
    destruct (g (dict_get m k) v) as [x|e]; [|discriminate]. cbn [bind].
    intros H. rewrite (IH Hn' _ _ H), keys_dict_set.
    cbn [keys map fst fresh_keys filter]. fold (keys todo).
    fold (fresh_keys (keys m) (keys todo)).
    destruct (mem_key k (keys m)); cbn [negb]; [reflexivity|].
    fold (fresh_keys (keys m ++ [k]) (keys todo)).
    rewrite (fresh_keys_skip _ _ _ Hk), <- app_assoc. reflexivity.
Qed.

Lemma set_loop_NoDup (todo : list (str * Tree)) :
  forall m m', NoDup (keys m) -> for_each body todo (Node m) = Ok (Node m') ->
               NoDup (keys m').
Proof.
  induction todo as [|[k v] todo IH]; intros m m' Hn.
  - cbn. intros [= <-]. exact Hn.
  - cbn [for_each]. rewrite body_Node.
    destruct (g (dict_get m k) v) as [x|e]; [|discriminate]. cbn [bind].
    apply IH. apply NoDup_keys_dict_set. exact Hn.
Qed.

End SetLoopKeys.

Lemma dict_set_fresh (m : dict) (k : str) (v : Tree) :
  ~ In k (keys m) -> dict_set m k v = m ++ [(k, v)].
Proof.
  induction m as [|[k' v'] m IH]; intros Hk; [reflexivity|].
  cbn [dict_set]. destruct (str_eqb k' k) eqn:E.
  - apply str_eqb_eq in E. subst k'. exfalso. apply Hk. left. reflexivity.
  - rewrite IH; [reflexivity|]. intros Hin. apply Hk. right. exact Hin.
Qed.

Lemma wf_tree_In (items : list (str * Tree)) (k : str) (v : Tree) :
  wf_tree (Node items) = true -> In (k, v) items -> wf_tree v = true.
Proof. intros Hwf Hin. apply wf_tree_Node in Hwf as [_ Hc]. exact (Hc k v Hin). Qed.

Section MergeMore.

Variable sel : Tree -> bool.
Variable du : Tree -> Tree -> result Tree.

Hypothesis du_Leaf : forall base l, du base (Leaf l) = Raise AttributeError.
Hypothesis du_Node : forall base items,
  NoDup (keys items) ->
  du base (Node items) = for_each (merge_body sel du) items base.
Hypothesis sel_Leaf : forall l, sel (Leaf l) = false.

(** A loop that finds none of its keys in the base appends its items. *)
Lemma append_loop (todo : list (str * Tree)) :
  forall acc,
    NoDup (keys (acc ++ todo)) ->
    (forall k v, In (k, v) todo -> merge_value sel du None v = Ok v) ->
    for_each (merge_body sel du) todo (Node acc) = Ok (Node (acc ++ todo)).
Proof.
  induction todo as [|[k v] todo IH]; intros acc Hn Hv.
  - cbn. rewrite app_nil_r. reflexivity.
  - cbn [for_each]. rewrite merge_body_Node.
    assert (~ In k (keys acc)) as Hk.
    { unfold keys in Hn. rewrite map_app in Hn. cbn in Hn.
      apply NoDup_remove_2 in Hn. intros Hin. apply Hn.
      apply in_or_app. left. exact Hin. }
    rewrite (proj2 (dict_get_None acc k) Hk), (Hv k v (or_introl eq_refl)).
    cbn [bind]. rewrite (dict_set_fresh _ _ _ Hk).
    rewrite IH.
    + rewrite <- app_assoc. reflexivity.
    + rewrite <- app_assoc. exact Hn.
    + intros k0 v0 Hin. apply (Hv k0). right. exact Hin.
Qed.

(** Merged into an empty base, the overrides come out as they are. *)
Lemma merge_into_empty (ov : Tree) :
  wf_tree ov = true -> isinstance_dict ov = true -> du (Node []) ov = Ok ov.
Proof.
  induction ov as [l|items IH] using Tree_ind; intros Hwf Hd; [discriminate|].
  pose proof Hwf as Hwf'. apply wf_tree_Node in Hwf' as [Hn Hc].
  rewrite (du_Node _ _ Hn). rewrite Forall_forall in IH.
  apply (append_loop items []); [exact Hn|].
  intros k v Hin. unfold merge_value. destruct (sel v) eqn:Hs; [|reflexivity].
  apply (IH (k, v) Hin (Hc k v Hin)).
  destruct v; [rewrite sel_Leaf in Hs; discriminate | reflexivity].
Qed.

(** A merge of well-formed trees gives a well-formed tree. *)
Lemma merge_wf (ov : Tree) :
  wf_tree ov = true ->
  forall base r, wf_tree base = true -> du base ov = Ok r -> wf_tree r = true.
Proof.
  induction ov as [l|items IH] using Tree_ind; intros Hwf base r Hb H.
  - rewrite du_Leaf in H; discriminate.
  - destruct base as [s|m].
    + destruct (merge_Leaf_base sel du du_Leaf du_Node _ _ _ Hwf H) as [_ ->].
      reflexivity.
    + pose proof Hwf as Hwf'. apply wf_tree_Node in Hwf' as [Hn Hc].
      pose proof Hb as Hb'. apply wf_tree_Node in Hb' as [Hnm Hcm].
      rewrite (du_Node _ _ Hn) in H. rewrite Forall_forall in IH.
      destruct (set_loop_ok _ _ (merge_body_Node sel du) _ Hn _ _ H)
        as (m' & -> & Hin & Hout).
      pose proof (set_loop_NoDup _ _ (merge_body_Node sel du) _ _ _ Hnm H) as Hnm'.
      apply wf_tree_Node. split; [exact Hnm'|].
      intros k' v' Hin'. pose proof (In_dict_get _ _ _ Hnm' Hin') as Hget'.
      destruct (in_dec str_eq_dec k' (keys items)) as [Hk|Hk].
      * apply in_map_iff in Hk as ([k0 v] & E & Hkv). cbn in E. subst k0.
        destruct (Hin k' v Hkv) as (x & Hg & Hx).
        rewrite Hget' in Hx. injection Hx as <-.
        unfold merge_value in Hg. destruct (sel v).
        -- apply (IH (k', v) Hkv (Hc _ _ Hkv) _ _) in Hg; [exact Hg|].
           destruct (dict_get m k') as [b|] eqn:Eb; [|reflexivity].
           cbn. apply (Hcm k'). apply dict_get_In. exact Eb.
        -- injection Hg as <-. exact (Hc _ _ Hkv).
      * rewrite (Hout k' Hk) in Hget'. apply (Hcm k'). apply dict_get_In. exact Hget'.
Qed.

End MergeMore.

(** X1.  Merged into an empty base, the overrides come out as they are, key for
    key and in their order: both [deep_update] copy them, as long as the
    frames the recursion limit leaves suffice for the nesting of the
    overrides; with fewer frames the merge raises [RecursionError]. *)
Theorem merge_into_empty_base (frames : nat) (overrides : Tree) :
  wf_tree overrides = true ->
  isinstance_dict overrides = true ->
  fix_ka_translation.deep_update_within frames (Node []) overrides
  = (if frames_needed nonempty_node overrides <=? frames
     then Ok overrides else Raise RecursionError) /\
  rehydrate_ka.deep_update_within frames (Node []) overrides
  = (if frames_needed isinstance_dict overrides <=? frames
     then Ok overrides else Raise RecursionError).
Proof.
  intros Hwf Hd.
  assert (fix_ka_translation.deep_update (Node []) overrides = Ok overrides) as Hf.
  { apply (merge_into_empty nonempty_node fix_ka_translation.deep_update);
      auto using fix_du_Node. }
  assert (rehydrate_ka.deep_update (Node []) overrides = Ok overrides) as Hr.
  { apply (merge_into_empty isinstance_dict rehydrate_ka.deep_update);
      auto using rehydrate_du_Node. }
  split.
  - destruct (Nat.leb_spec (frames_needed nonempty_node overrides) frames) as [Hle|Hlt].
    + rewrite (fix_within_enough _ _ _ Hwf Hle). exact Hf.
    + apply (fix_within_outcome frames (Node []) overrides Hwf); [|exact Hlt].
      apply (fix_total_iff _ Hwf). exists overrides. exact Hf.
  - destruct (Nat.leb_spec (frames_needed isinstance_dict overrides) frames) as [Hle|Hlt].
    + rewrite (rehydrate_within_enough _ _ _ Hwf Hle). exact Hr.
    + apply (rehydrate_within_outcome frames (Node []) overrides Hwf); [|exact Hlt].
      apply (rehydrate_total_iff _ Hwf). exists overrides. exact Hr.
Qed.

Lemma merge_into_empty_base_witness :
  let overrides :=
    Node [(py "home", Node [(py "blog", Node [(py "title", Leaf (py "t"))]);
                            (py "e", Node [])]);
          (py "k", Leaf (py "v"))] in
  wf_tree overrides = true /\ isinstance_dict overrides = true /\
  fix_ka_translation.deep_update_within 3 (Node []) overrides = Ok overrides /\
  rehydrate_ka.deep_update_within 3 (Node []) overrides = Ok overrides /\
  fix_ka_translation.deep_update_within 2 (Node []) overrides = Raise RecursionError.
Proof.
  intros overrides. split; [reflexivity|]. split; [reflexivity|].
  split; [|split].
  - exact (proj1 (merge_into_empty_base 3 overrides eq_refl eq_refl)).
  - exact (proj2 (merge_into_empty_base 3 overrides eq_refl eq_refl)).
  - exact (proj1 (merge_into_empty_base 2 overrides eq_refl eq_refl)).
Defined.

(** X2.  A merge keeps the keys of the base in their places and puts the keys it
    adds after them, in the order of the overrides; this is the order in
    which [json.dump] then writes the top level of the file. *)
Theorem merge_key_order (m items : dict) (r : Tree) :
  wf_tree (Node items) = true ->
  fix_ka_translation.deep_update (Node m) (Node items) = Ok r \/
  rehydrate_ka.deep_update (Node m) (Node items) = Ok r ->
  exists m', r = Node m' /\ keys m' = keys m ++ fresh_keys (keys m) (keys items).
Proof.
  intros Hwf H. apply wf_tree_Node in Hwf as [Hn _].
  destruct H as [H|H].
  - rewrite (fix_du_Node _ _ Hn) in H.
    destruct (set_loop_ok _ _ (merge_body_Node _ _) _ Hn _ _ H) as (m' & -> & _).
    exists m'. split; [reflexivity|].
    exact (set_loop_keys _ _ (merge_body_Node _ _) _ Hn _ _ H).
  - rewrite (rehydrate_du_Node _ _ Hn) in H.
    destruct (set_loop_ok _ _ (merge_body_Node _ _) _ Hn _ _ H) as (m' & -> & _).
    exists m'. split; [reflexivity|].
    exact (set_loop_keys _ _ (merge_body_Node _ _) _ Hn _ _ H).
Qed.

Lemma merge_key_order_witness :
  let m := [(py "b", Leaf (py "1")); (py "a", Node [])] in
  let items := [(py "z", Leaf (py "2")); (py "a", Leaf (py "3")); (py "c", Node [])] in
  wf_tree (Node items) = true /\
  exists m', Node [(py "b", Leaf (py "1")); (py "a", Leaf (py "3"));
                   (py "z", Leaf (py "2")); (py "c", Node [])] = Node m' /\
             keys m' = [py "b"; py "a"; py "z"; py "c"].
Proof.
  intros m items. split; [reflexivity|].
  refine (merge_key_order m items _ _ _); [reflexivity|].
  left. reflexivity.
Defined.

(** X3.  Both merges keep the trees well formed: when the base and the overrides
    have pairwise different keys at every level, so has the result. *)
Theorem merge_preserves_wf (base overrides r : Tree) :
  wf_tree base = true ->
  wf_tree overrides = true ->
  fix_ka_translation.deep_update base overrides = Ok r \/
  rehydrate_ka.deep_update base overrides = Ok r ->
  wf_tree r = true.
Proof.
  intros Hb Hwf [H|H].
  - exact (merge_wf nonempty_node fix_ka_translation.deep_update
             fix_du_Leaf fix_du_Node overrides Hwf base r Hb H).
  - exact (merge_wf isinstance_dict rehydrate_ka.deep_update
             rehydrate_du_Leaf rehydrate_du_Node overrides Hwf base r Hb H).
Qed.

Lemma merge_preserves_wf_witness :
  let base := Node [(py "a", Node [(py "x", Leaf (py "1"))]); (py "t", Leaf (py "u"))] in
  let overrides := Node [(py "a", Node [(py "y", Leaf (py "2"))]); (py "n", Node [])] in
  wf_tree base = true /\ wf_tree overrides = true /\
  wf_tree (Node [(py "a", Node [(py "x", Leaf (py "1")); (py "y", Leaf (py "2"))]);
                 (py "t", Leaf (py "u")); (py "n", Node [])]) = true.
Proof.
  intros base overrides. split; [reflexivity|]. split; [reflexivity|].
  refine (merge_preserves_wf base overrides _ _ _ _); try reflexivity.
  left. reflexivity.
Defined.

(** X4.  The [deep_update] of rehydrate_ka.py is idempotent in the overrides as
    well. *)
Theorem rehydrate_merge_idempotent (d u r : Tree) :
  wf_tree u = true ->
  rehydrate_ka.deep_update d u = Ok r ->
  rehydrate_ka.deep_update r u = Ok r.
Proof.
  intros Hwf H.
  exact (merge_twice isinstance_dict rehydrate_ka.deep_update
           rehydrate_du_Leaf rehydrate_du_Node u Hwf d r H).
Qed.

Lemma rehydrate_merge_idempotent_witness :
  let d := Node [(py "a", Node [(py "x", Leaf (py "1"))])] in
  let u := Node [(py "a", Node []); (py "b", Node [(py "y", Leaf (py "2"))])] in
  let r := Node [(py "a", Node [(py "x", Leaf (py "1"))]);
                 (py "b", Node [(py "y", Leaf (py "2"))])] in
  wf_tree u = true /\
  rehydrate_ka.deep_update d u = Ok r /\
  rehydrate_ka.deep_update r u = Ok r.
Proof.
  intros d u r. split; [reflexivity|]. split; [reflexivity|].
  apply (rehydrate_merge_idempotent d u r); reflexivity.
Defined.

(** X5.  On overrides without an empty dict below their root the two
    [deep_update] are one function: same result, same exception. *)
Theorem merges_agree_without_empty_node (overrides : Tree) :
  wf_tree overrides = true ->
  no_empty_node overrides = true ->
  forall base,
    fix_ka_translation.deep_update base overrides
    = rehydrate_ka.deep_update base overrides.
Proof.
  induction overrides as [l|items IH] using Tree_ind; intros Hwf Hne base;
    [reflexivity|].
  pose proof Hwf as Hwf'. apply wf_tree_Node in Hwf' as [Hn Hc].
  rewrite (fix_du_Node _ _ Hn), (rehydrate_du_Node _ _ Hn).
  rewrite Forall_forall in IH. cbn [no_empty_node] in Hne.
  rewrite forallb_forall in Hne.
  apply for_each_ext_in. intros [k v] Hin s.
  specialize (Hne (k, v) Hin). cbn beta iota in Hne.
  destruct v as [l|[|kv its]]; [reflexivity | discriminate |].
  unfold merge_body, merge_value. cbn [nonempty_node isinstance_dict truthy andb].
  destruct s as [l|m]; [reflexivity|].
  rewrite (IH (k, Node (kv :: its)) Hin (Hc _ _ Hin) Hne). reflexivity.
Qed.

Lemma merges_agree_without_empty_node_witness :
  let overrides :=
    Node [(py "common", Node [(py "reset", Leaf (py "r"))]);
          (py "home", Node [(py "blog", Node [(py "title", Leaf (py "t"))])])] in
  let base := Node [(py "home", Node [(py "blog", Leaf (py "old"))])] in
  wf_tree overrides = true /\ no_empty_node overrides = true /\
  fix_ka_translation.deep_update base overrides
  = rehydrate_ka.deep_update base overrides.
Proof.
  intros overrides base. split; [reflexivity|]. split; [reflexivity|].
  apply (merges_agree_without_empty_node overrides); reflexivity.
Defined.

(** X6.  Both merges raise as soon as the overrides hold a non-empty dict at a
    place where the base holds a leaf, whatever the other keys are: the pair
    of trees is then not [mergeable]. *)
Theorem merge_raises_unless_mergeable (base overrides : Tree) :
  wf_tree overrides = true ->
  mergeable base overrides = false ->
  (exists e, fix_ka_translation.deep_update base overrides = Raise e) /\
  (exists e, rehydrate_ka.deep_update base overrides = Raise e).
Proof.
  intros Hwf Hm. split.
  - destruct (fix_ka_translation.deep_update base overrides) as [r|e] eqn:H;
      [|exists e; reflexivity].
    assert (mergeable base overrides = true) as Ht
        by (apply (fix_total_iff _ Hwf); exists r; exact H).
    congruence.
  - destruct (rehydrate_ka.deep_update base overrides) as [r|e] eqn:H;
      [|exists e; reflexivity].
    assert (mergeable base overrides = true) as Ht
        by (apply (rehydrate_total_iff _ Hwf); exists r; exact H).
    congruence.
Qed.

Lemma merge_raises_unless_mergeable_witness :
  let base := Node [(py "ok", Leaf (py "1"));
                    (py "home", Node [(py "blog", Leaf (py "soon"))])] in
  let overrides :=
    Node [(py "ok", Leaf (py "2"));
          (py "home", Node [(py "blog", Node [(py "title", Leaf (py "t"))])])] in
  wf_tree overrides = true /\ mergeable base overrides = false /\
  (exists e, fix_ka_translation.deep_update base overrides = Raise e) /\
  (exists e, rehydrate_ka.deep_update base overrides = Raise e).
Proof.
  intros base overrides. split; [reflexivity|]. split; [reflexivity|].
  apply (merge_raises_unless_mergeable base overrides); reflexivity.
Defined.

(** * Further properties of [update_json_file] *)

Lemma for_each_ext_Node (f g : Tree -> str * Tree -> result Tree)
  (xs : list (str * Tree)) :
  (forall x m, In x xs -> f (Node m) x = g (Node m) x) ->
  (forall x m r, g (Node m) x = Ok r -> exists m', r = Node m') ->
  forall m, for_each f xs (Node m) = for_each g xs (Node m).
Proof.
  intros Hfg Hg. induction xs as [|x xs IH]; intros m; [reflexivity|].
  cbn [for_each]. rewrite (Hfg x m (or_introl eq_refl)).
  destruct (g (Node m) x) as [r|e] eqn:E; [|reflexivity]. cbn [bind].
  destruct (Hg _ _ _ E) as [m' ->]. apply IH.
  intros y m0 Hy. apply Hfg. right. exact Hy.
Qed.

Lemma update_body_Node (m : dict) (k : str) (v : Tree) :
  update_body (Node m) (k, v)
  = x <- update_value (dict_get m k) v ;; Ok (Node (dict_set m k x)).
Proof. reflexivity. Qed.

Lemma update_body_stays_Node (x : str * Tree) (m : dict) (r : Tree) :
  update_body (Node m) x = Ok r -> exists m', r = Node m'.
Proof.
  destruct x as [k v]. rewrite update_body_Node.
  destruct (update_value (dict_get m k) v) as [y|e]; [|discriminate].
  intros [= <-]. eexists; reflexivity.
Qed.

(** On a base that is a dict the merge of [update_json_file] is a loop of
    the shape of [set_loop_ok]. *)
Lemma update_json_file_loop (m : dict) (new_items : list (str * Tree)) :
  update_translations.update_json_file (Node m) (Node new_items)
  = for_each update_body new_items (Node m).
Proof.
  unfold update_translations.update_json_file. cbn [py_items bind].
  apply for_each_ext_Node; [|exact update_body_stays_Node].
  intros [k v] m0 _. rewrite update_body_Node. cbn [py_contains].
  destruct (dict_get m0 k) as [c|] eqn:Hc; [|reflexivity].
  destruct v as [l|sub_items]; [reflexivity|].
  cbn [isinstance_dict py_items bind update_value].
  apply update_inner_loop. exact Hc.
Qed.

Lemma assign_loop_fixed (sub : list (str * Tree)) :
  NoDup (keys sub) -> for_each assign_item sub (Node sub) = Ok (Node sub).
Proof.
  intros Hn. apply (set_loop_fixed _ _ assign_item_Node).
  intros k v Hin. exists v. split; [reflexivity|].
  apply In_dict_get; assumption.
Qed.


(** X7.  [update_json_file] leaves alone what the new data do not name: a
    top-level key that is not in the new data keeps its value, and inside a
    section that both trees have, a key that the section of the new data
    does not have keeps its value. *)
Theorem update_json_file_keeps_siblings (d n : dict) (r : Tree) :
  wf_tree (Node n) = true ->
  update_translations.update_json_file (Node d) (Node n) = Ok r ->
  (forall k, dict_get n k = None -> tree_lookup r k = dict_get d k) /\
  (forall k b nv sk,
     dict_get d k = Some (Node b) ->
     dict_get n k = Some (Node nv) ->
     dict_get nv sk = None ->
     exists rk, tree_lookup r k = Some (Node rk) /\ dict_get rk sk = dict_get b sk).
Proof.
  intros Hwf H. pose proof Hwf as Hwf'. apply wf_tree_Node in Hwf' as [Hn _].
  destruct (update_json_file_Node _ _ _ Hn H) as (m' & -> & Hin & Hout).
  split.
  - intros k Hk. apply Hout. apply dict_get_None. exact Hk.
  - intros k b nv sk Hb Hnv Hsk.
    destruct (Hin k _ (dict_get_In _ _ _ Hnv)) as (x & Hg & Hget).
    rewrite Hb in Hg. cbn [update_value] in Hg.
    pose proof (wf_tree_lookup (Node n) k _ Hwf Hnv) as Hwfnv.
    apply wf_tree_Node in Hwfnv as [Hnn _].
    destruct (set_loop_ok _ _ assign_item_Node _ Hnn _ _ Hg) as (rk & -> & _ & Hout').
    exists rk. split; [exact Hget|].
    apply Hout'. apply dict_get_None. exact Hsk.
Qed.

Lemma update_json_file_keeps_siblings_witness :
  let d := [(py "common", Node [(py "cars", Leaf (py "Autos")); (py "old", Leaf (py "o"))]);
            (py "footer", Leaf (py "f"))] in
  let n := [(py "common", Node [(py "cars", Leaf (py "Cars"))])] in
  let r := Node [(py "common", Node [(py "cars", Leaf (py "Cars")); (py "old", Leaf (py "o"))]);
                 (py "footer", Leaf (py "f"))] in
  wf_tree (Node n) = true /\
  update_translations.update_json_file (Node d) (Node n) = Ok r /\
  tree_lookup r (py "footer") = dict_get d (py "footer").
Proof.
  intros d n r. split; [reflexivity|]. split; [reflexivity|].
  refine (proj1 (update_json_file_keeps_siblings d n r _ _) (py "footer") _);
    reflexivity.
Defined.

(** X8.  Running [update_json_file] a second time with the same new data changes
    nothing. *)
Theorem update_json_file_idempotent (d n : dict) (r : Tree) :
  wf_tree (Node n) = true ->
  update_translations.update_json_file (Node d) (Node n) = Ok r ->
  update_translations.update_json_file r (Node n) = Ok r.
Proof.
  intros Hwf H. pose proof Hwf as Hwf'. apply wf_tree_Node in Hwf' as [Hn Hc].
  destruct (update_json_file_Node _ _ _ Hn H) as (m' & -> & Hin & _).
  rewrite update_json_file_loop. apply (set_loop_fixed _ _ update_body_Node).
  intros k v Hkv. destruct (Hin k v Hkv) as (x & Hg & Hget).
  exists x. split; [|exact Hget]. rewrite Hget.
  destruct v as [l|sub].
  - destruct (dict_get d k); cbn in Hg; injection Hg as <-; reflexivity.
  - pose proof (Hc _ _ Hkv) as Hwfs. apply wf_tree_Node in Hwfs as [Hns _].
    destruct (dict_get d k) as [c|]; cbn [update_value] in Hg |- *.
    + destruct c as [l|b].
      * destruct sub as [|kv sub];
          [cbn in Hg; injection Hg as <-; reflexivity | destruct kv; discriminate Hg].
      * destruct (set_loop_ok _ _ assign_item_Node _ Hns _ _ Hg) as (rk & -> & Hin' & _).
        apply (set_loop_fixed _ _ assign_item_Node).
        intros sk sv Hs. destruct (Hin' sk sv Hs) as (y & Hy & Hgy).
        injection Hy as <-. exists sv. split; [reflexivity | exact Hgy].
    + injection Hg as <-. apply assign_loop_fixed. exact Hns.
Qed.

Lemma update_json_file_idempotent_witness :
  let d := [(py "common", Node [(py "cars", Leaf (py "Autos"))])] in
  let n := [(py "common", Node [(py "cars", Leaf (py "Cars"))]);
            (py "sort", Node [(py "relevance", Leaf (py "Relevance"))])] in
  wf_tree (Node n) = true /\
  update_translations.update_json_file (Node d) (Node n) = Ok (Node n) /\
  update_translations.update_json_file (Node n) (Node n) = Ok (Node n).
Proof.
  intros d n. split; [reflexivity|]. split; [reflexivity|].
  apply (update_json_file_idempotent d n (Node n)); reflexivity.
Defined.

(** X9.  On new data whose values are texts or dicts of texts, as the two tables
    of the script are, [update_json_file] and the [deep_update] of
    rehydrate_ka.py do the same to a base that is a dict: same result, same
    exception. *)
Theorem update_json_file_is_deep_update_on_flat (d : dict) (new_data : Tree) :
  wf_tree new_data = true ->
  flat_sections new_data = true ->
  update_translations.update_json_file (Node d) new_data
  = rehydrate_ka.deep_update (Node d) new_data.
Proof.
  intros Hwf Hflat. destruct new_data as [l|n]; [discriminate|].
  pose proof Hwf as Hwf'. apply wf_tree_Node in Hwf' as [Hn Hc].
  rewrite update_json_file_loop, (rehydrate_du_Node _ _ Hn).
  cbn [flat_sections] in Hflat. rewrite forallb_forall in Hflat.
  apply for_each_ext_Node.
  - intros [k v] m Hin. rewrite update_body_Node, merge_body_Node. f_equal.
    specialize (Hflat _ Hin). cbn [snd] in Hflat.
    destruct v as [l|sub]; [destruct (dict_get m k); reflexivity|].
    unfold merge_value. cbn [isinstance_dict].
    pose proof (Hc _ _ Hin) as Hwfs.
    destruct (dict_get m k) as [c|]; cbn [update_value default_node].
    + pose proof Hwfs as Hwfs'. apply wf_tree_Node in Hwfs' as [Hns _].
      rewrite (rehydrate_du_Node _ _ Hns).
      rewrite forallb_forall in Hflat.
      apply for_each_ext_in. intros [sk sv] Hs s.
      specialize (Hflat _ Hs). cbn [snd] in Hflat.
      destruct sv as [l|x]; [|discriminate].
      destruct s; reflexivity.
    + symmetry.
      apply (merge_into_empty isinstance_dict rehydrate_ka.deep_update);
        auto using rehydrate_du_Node.
  - intros [k v] m r. rewrite merge_body_Node.
    destruct (merge_value isinstance_dict rehydrate_ka.deep_update (dict_get m k) v);
      [|discriminate].
    intros [= <-]. eexists; reflexivity.
Qed.

Lemma update_json_file_is_deep_update_on_flat_witness :
  let d := [(py "common", Node [(py "cars", Leaf (py "Autos"))]);
            (py "error", Leaf (py "e"))] in
  let new_data :=
    Node [(py "common", Node [(py "cars", Leaf (py "Cars")); (py "vans", Leaf (py "Vans"))]);
          (py "sort", Node [(py "relevance", Leaf (py "Relevance"))]);
          (py "error", Node [(py "failed", Leaf (py "Failed"))])] in
  wf_tree new_data = true /\ flat_sections new_data = true /\
  update_translations.update_json_file (Node d) new_data
  = rehydrate_ka.deep_update (Node d) new_data.
Proof.
  intros d new_data. split; [reflexivity|]. split; [reflexivity|].
  apply (update_json_file_is_deep_update_on_flat d new_data); reflexivity.
Defined.



(** * Further properties of the recovery chain *)


Lemma str_count_app (s t : str) (c : char) :
  str_count (s ++ t) c = (str_count s c + str_count t c)%Z.
Proof.
  induction s as [|x s IH]; cbn [str_count app]; [reflexivity|].
  rewrite IH. lia.
Qed.

Lemma str_count_repeat (c d : char) (n : nat) :
  str_count (repeat c n) d = if N.eqb c d then Z.of_nat n else 0%Z.
Proof.
  induction n as [|n IH]; cbn [repeat str_count]; [destruct (N.eqb c d); reflexivity|].
  rewrite IH. destruct (N.eqb c d); lia.
Qed.

Lemma fix_braces_append (s : str) :
  (str_count s rbrace <= str_count s lbrace)%Z ->
  fix_braces s
  = s ++ repeat rbrace (Z.to_nat (str_count s lbrace - str_count s rbrace)).
Proof.
  intros Hle. unfold fix_braces, str_repeat.
  destruct (Z.ltb_spec 0 (str_count s lbrace - str_count s rbrace)); [reflexivity|].
  destruct (Z.ltb_spec (str_count s lbrace - str_count s rbrace) 0); [lia|].
  replace (str_count s lbrace - str_count s rbrace)%Z with 0%Z by lia.
  cbn. rewrite app_nil_r. reflexivity.
Qed.


(** X12.  When the text has at least as many opening as closing braces, the
    repaired text has as many of each, starts with the text itself, and a
    second repair leaves it as it is. *)
Theorem fix_braces_balances (ka_content : str) :
  (str_count ka_content rbrace <= str_count ka_content lbrace)%Z ->
  str_count (fix_braces ka_content) lbrace = str_count (fix_braces ka_content) rbrace /\
  firstn (List.length ka_content) (fix_braces ka_content) = ka_content /\
  fix_braces (fix_braces ka_content) = fix_braces ka_content.
Proof.
  intros Hle.
  assert (str_count (fix_braces ka_content) lbrace
          = str_count (fix_braces ka_content) rbrace) as Hbal.
  { rewrite (fix_braces_append _ Hle), !str_count_app, !str_count_repeat.
    cbn [N.eqb rbrace lbrace Pos.eqb]. lia. }
  split; [exact Hbal|]. split.
  - rewrite (fix_braces_append _ Hle), firstn_app, Nat.sub_diag, firstn_all.
    cbn. apply app_nil_r.
  - apply fix_braces_balanced. exact Hbal.
Qed.

Lemma fix_braces_balances_witness :
  let ka_content := text "{'a': {'b': 'c'" in
  (str_count ka_content rbrace <= str_count ka_content lbrace)%Z /\
  fix_braces ka_content = text "{'a': {'b': 'c'}}" /\
  str_count (fix_braces ka_content) lbrace = str_count (fix_braces ka_content) rbrace.
Proof.
  intros ka_content. split; [vm_compute; discriminate|]. split; [reflexivity|].
  refine (proj1 (fix_braces_balances ka_content _)). vm_compute; discriminate.
Defined.

Lemma re_sub_keeps_other_chars (closer : char) (s : str) :
  filter (fun c => negb (N.eqb c comma)) (re_sub_comma_before closer s)
  = filter (fun c => negb (N.eqb c comma)) s.
Proof.
  induction s as [|c s IH]; [reflexivity|]. cbn [re_sub_comma_before].
  destruct (N.eqb c comma) eqn:E; cbn [andb].
  - destruct (re_lookahead_spaces_then closer s); cbn [filter]; rewrite E;
      cbn [negb]; exact IH.
  - cbn [filter]. rewrite E. cbn [negb]. rewrite IH. reflexivity.
Qed.

Lemma str_count_filter (s : str) (c : char) (keep : char -> bool) :
  keep c = true -> str_count (filter keep s) c = str_count s c.
Proof.
  intros Hk. induction s as [|x s IH]; [reflexivity|]. cbn [filter str_count].
  destruct (keep x) eqn:E; cbn [str_count]; rewrite IH; [reflexivity|].
  destruct (N.eqb x c) eqn:Ex; [|reflexivity].
  apply N.eqb_eq in Ex. subst x. congruence.
Qed.

(** X13.  The comma repair removes commas and nothing else: without its commas
    the text is what it was, so every other character, a brace in
    particular, occurs as often as before and the text never grows. *)
Theorem strip_trailing_commas_removes_commas_only (fixed_content : str) :
  filter (fun c => negb (N.eqb c comma)) (strip_trailing_commas fixed_content)
  = filter (fun c => negb (N.eqb c comma)) fixed_content /\
  (forall c, c <> comma ->
     str_count (strip_trailing_commas fixed_content) c = str_count fixed_content c) /\
  List.length (strip_trailing_commas fixed_content) <= List.length fixed_content.
Proof.
  assert (filter (fun c => negb (N.eqb c comma)) (strip_trailing_commas fixed_content)
          = filter (fun c => negb (N.eqb c comma)) fixed_content) as Hf.
  { unfold strip_trailing_commas. rewrite !re_sub_keeps_other_chars. reflexivity. }
  split; [exact Hf|]. split.
  - intros c Hc.
    assert (negb (N.eqb c comma) = true) as Hk
        by (apply negb_true_iff, N.eqb_neq; exact Hc).
    rewrite <- (str_count_filter (strip_trailing_commas fixed_content) c
                  (fun x => negb (N.eqb x comma)) Hk).
    rewrite <- (str_count_filter fixed_content c (fun x => negb (N.eqb x comma)) Hk).
    f_equal. exact Hf.
  - unfold strip_trailing_commas.
    assert (forall closer s,
              List.length (re_sub_comma_before closer s) <= List.length s) as Hlen.
    { intros closer s. induction s as [|c s IH]; [apply le_n|].
      cbn [re_sub_comma_before].
      destruct (N.eqb c comma && re_lookahead_spaces_then closer s);
        cbn [List.length]; lia. }
    etransitivity; [apply Hlen | apply Hlen].
Qed.

Lemma strip_trailing_commas_removes_commas_only_witness :
  let fixed_content := text "{'a': ['x', 'y', ], 'b': 'c, }' , }" in
  strip_trailing_commas fixed_content = text "{'a': ['x', 'y' ], 'b': 'c }'  }" /\
  str_count (strip_trailing_commas fixed_content) rbrace
  = str_count fixed_content rbrace.
Proof.
  intros fixed_content. split; [reflexivity|].
  apply (proj1 (proj2 (strip_trailing_commas_removes_commas_only fixed_content))).
  discriminate.
Defined.

(** X14.  The brace repair restores a document that lost closing braces at its
    end: when [S] followed by [n] closing braces is a text [D] with as many
    opening as closing braces that the parser accepts, the loader applied to
    [S] returns the tree of [D], whatever the fallback. *)
Theorem load_lenient_restores_cut_closers
  (json_loads : str -> result Tree) (S : str) (n : nat) (fallback t : Tree) :
  let D := S ++ repeat rbrace n in
  str_count D lbrace = str_count D rbrace ->
  json_loads D = Ok t ->
  load_lenient json_loads S fallback = Ok t.
Proof.
  intros D Hbal Hparse. apply load_lenient_balanced_parse.
  unfold D in Hbal. rewrite !str_count_app, !str_count_repeat in Hbal.
  cbn [N.eqb rbrace lbrace Pos.eqb] in Hbal.
  rewrite fix_braces_append by lia.
  replace (str_count S lbrace - str_count S rbrace)%Z with (Z.of_nat n) by lia.
  rewrite Nat2Z.id. exact Hparse.
Qed.

Lemma load_lenient_restores_cut_closers_witness :
  let S := text "{'home': {'blog': {'title': 'b'" in
  let t := Node [(py "home", Node [(py "blog", Node [(py "title", Leaf (py "b"))])])] in
  str_count (S ++ repeat rbrace 3) lbrace = str_count (S ++ repeat rbrace 3) rbrace /\
  loads (S ++ repeat rbrace 3) = Ok t /\
  load_lenient loads S (Node []) = Ok t.
Proof.
  intros S t. split; [reflexivity|]. split; [reflexivity|].
  apply (load_lenient_restores_cut_closers loads S 3 (Node []) t); reflexivity.
Defined.

(** * The script of fix_ka_translation.py around its merge *)

Import fix_ka_translation_script.

Lemma clean_lines_copy (lines acc : list str) :
  fold_left
    (fun (cleaned_lines : list str) (line : str) =>
       let cleaned_lines :=
         if str_contains line remove_line && negb (str_contains line (py "},"))
         then cleaned_lines
         else cleaned_lines in
       cleaned_lines ++ [line])
    lines acc
  = acc ++ lines.
Proof.
  revert acc. induction lines as [|l lines IH]; intros acc; cbn [fold_left].
  - rewrite app_nil_r. reflexivity.
  - rewrite IH.
    destruct (str_contains l remove_line && negb (str_contains l (py "},")));
      rewrite <- app_assoc; reflexivity.
Qed.

Lemma clean_join (content : str) :
  clean content = str_join [10%N] (splitlines content).
Proof. unfold clean. rewrite clean_lines_copy. reflexivity. Qed.

Lemma splitlines_from_nonempty (s cur : str) :
  cur <> [] \/ s <> [] -> splitlines_from cur s <> [].
Proof.
  revert cur. induction s as [|c s IH]; intros cur H; cbn [splitlines_from].
  - destruct cur; [destruct H; congruence | discriminate].
  - destruct (N.eqb c 13).
    + destruct s as [|c2 s]; [discriminate|]. destruct (N.eqb c2 10); discriminate.
    + destruct (is_linebreak c); [discriminate|].
      apply IH. left. destruct cur; discriminate.
Qed.

Lemma str_join_cons (sep p : str) (rest : list str) :
  rest <> [] -> str_join sep (p :: rest) = p ++ sep ++ str_join sep rest.
Proof. destruct rest; [congruence | reflexivity]. Qed.

Lemma join_splitlines_from (s : str) :
  only_line_feeds s = true ->
  last s 0%N <> 10%N ->
  forall cur, str_join [10%N] (splitlines_from cur s) = cur ++ s.
Proof.
  induction s as [|c s IH]; intros Hlf Hlast cur.
  - cbn. destruct cur; [reflexivity | rewrite app_nil_r; reflexivity].
  - cbn [only_line_feeds forallb] in Hlf. apply andb_true_iff in Hlf as [Hc Hlf].
    assert (last s 0%N <> 10%N) as Hlast'.
    { destruct s as [|c2 s]; [cbn; discriminate | exact Hlast]. }
    cbn [splitlines_from].
    destruct (N.eqb c 13) eqn:E13.
    { apply N.eqb_eq in E13. subst c. discriminate Hc. }
    destruct (is_linebreak c) eqn:Eb.
    + cbn [negb orb] in Hc. apply N.eqb_eq in Hc. subst c.
      assert (s <> []) as Hs by (intros ->; apply Hlast; reflexivity).
      rewrite str_join_cons
        by (apply splitlines_from_nonempty; right; exact Hs).
      rewrite (IH Hlf Hlast' []). reflexivity.
    + rewrite (IH Hlf Hlast' (cur ++ [c])), <- app_assoc. reflexivity.
Qed.

(** X15.  The copy of the lines changes nothing in a text whose only line
    boundaries are line feeds and which does not end with one, as the file
    [json.dump] wrote is. *)
Theorem clean_identity (content : str) :
  only_line_feeds content = true ->
  last content 0%N <> 10%N ->
  clean content = content.
Proof.
  intros Hlf Hlast. rewrite clean_join. unfold splitlines.
  apply (join_splitlines_from content Hlf Hlast []).
Qed.

Lemma clean_identity_witness :
  let content := [123; 10; 32; 32; 34; 97; 34; 58; 32; 34; 98; 34; 10; 125]%N in
  only_line_feeds content = true /\ last content 0%N <> 10%N /\
  clean content = content.
Proof.
  intros content. split; [reflexivity|]. split; [discriminate|].
  apply (clean_identity content); [reflexivity | discriminate].
Defined.

Lemma splitlines_from_no_break (n : nat) :
  forall s cur,
    List.length s <= n ->
    Forall (fun c => is_linebreak c = false) cur ->
    Forall (Forall (fun c => is_linebreak c = false)) (splitlines_from cur s).
Proof.
  induction n as [|n IH]; intros s cur Hlen Hcur.
  - destruct s; [|cbn in Hlen; lia]. cbn.
    destruct cur; constructor; [exact Hcur | constructor].
  - destruct s as [|c s]; cbn [splitlines_from].
    + destruct cur; constructor; [exact Hcur | constructor].
    + cbn [List.length] in Hlen.
      assert (forall s', List.length s' <= n ->
                Forall (Forall (fun c => is_linebreak c = false))
                  (cur :: splitlines_from [] s')) as Hnew.
      { intros s' Hs'. constructor; [exact Hcur | apply IH; [exact Hs' | constructor]]. }
      destruct (N.eqb c 13).
      * destruct s as [|c2 s]; [apply Hnew; cbn; lia|].
        cbn [List.length] in Hlen.
        destruct (N.eqb c2 10); apply Hnew; cbn [List.length]; lia.
      * destruct (is_linebreak c) eqn:Eb; [apply Hnew; lia|].
        apply IH; [lia|]. apply Forall_app. split; [exact Hcur|].
        repeat constructor. exact Eb.
Qed.

Lemma str_join_no_break (parts : list str) :
  Forall (Forall (fun c => is_linebreak c = false)) parts ->
  forall c, In c (str_join [10%N] parts) -> is_linebreak c = true -> c = 10%N.
Proof.
  induction parts as [|p rest IH]; intros Hp c Hin Hb; [destruct Hin|].
  inversion Hp as [|? ? Hp1 Hp2]; subst.
  assert (In c p -> c = 10%N) as Hinp.
  { intros H. rewrite Forall_forall in Hp1. rewrite (Hp1 c H) in Hb. discriminate. }
  destruct rest as [|q rest]; [exact (Hinp Hin)|].
  rewrite str_join_cons in Hin by discriminate.
  apply in_app_or in Hin as [Hin|Hin]; [exact (Hinp Hin)|].
  apply in_app_or in Hin as [[<-|[]]|Hin]; [reflexivity|].
  exact (IH Hp2 c Hin Hb).
Qed.

(** X16.  After the copy of the lines the only line boundaries left in the text
    are line feeds: every other boundary (a carriage return, a form feed,
    a line separator ...) has become one, also inside a string value. *)
Theorem clean_normalizes_linebreaks (content : str) (c : char) :
  In c (clean content) -> is_linebreak c = true -> c = 10%N.
Proof.
  rewrite clean_join. apply str_join_no_break.
  apply (splitlines_from_no_break (List.length content)); [apply le_n | constructor].
Qed.

Lemma clean_normalizes_linebreaks_witness :
  let content := [123; 13; 10; 34; 97; 8232; 34; 58; 34; 98; 34; 12; 125; 10]%N in
  clean content = [123; 10; 34; 97; 10; 34; 58; 34; 98; 34; 10; 125]%N /\
  In 10%N (clean content) /\ is_linebreak 10%N = true /\ 10%N = 10%N.
Proof.
  intros content. split; [reflexivity|].
  assert (In 10%N (clean content)) as Hin by (right; left; reflexivity).
  split; [exact Hin|]. split; [reflexivity|].
  apply (clean_normalizes_linebreaks content 10%N Hin). reflexivity.
Defined.

Lemma str_rfind_from_last (s : str) (c : char) :
  forall i found,
    str_rfind_from (s ++ [c]) c i found = (i + Z.of_nat (List.length s))%Z.
Proof.
  induction s as [|x s IH]; intros i found; cbn [app str_rfind_from List.length].
  - rewrite N.eqb_refl. lia.
  - rewrite IH. lia.
Qed.

Section ScriptFacts.

Variable json_loads : str -> result Tree.
Variable new_translations : Tree.

(** X17.  Unlike the chain of rehydrate_ka.py, this script parses the text of the
    file before any repair: a text that the parser accepts, whose line
    boundaries are line feeds and which does not end with one, is loaded as
    the parser reads it, braces inside its strings included. *)
Theorem load_parses_first (content : str) (t : Tree) :
  only_line_feeds content = true ->
  last content 0%N <> 10%N ->
  json_loads content = Ok t ->
  load json_loads content = Ok (Some t).
Proof.
  intros Hlf Hlast Hparse. unfold load.
  assert (clean content = content) as Hclean.
  { rewrite clean_join. unfold splitlines.
    apply (join_splitlines_from content Hlf Hlast []). }
  rewrite Hclean, Hparse. reflexivity.
Qed.

(** X18.  A refused text that ends with a closing brace is not repaired: the
    brace is appended only when the last closing brace lies more than five
    characters before the end, so [data] stays unbound. *)
Theorem load_no_repair_after_final_brace (content body : str) :
  clean content = body ++ [rbrace] ->
  json_loads (clean content) = Raise JSONDecodeError ->
  load json_loads content = Ok None.
Proof.
  intros Hend Hfail. unfold load. rewrite Hfail.
  assert ((str_rfind (clean content) rbrace
           <? Z.of_nat (List.length (clean content)) - 5)%Z = false) as Hno.
  { rewrite Hend. unfold str_rfind. rewrite str_rfind_from_last, length_app.
    cbn [List.length]. apply Z.ltb_ge. lia. }
  rewrite Hno, Hfail. reflexivity.
Qed.

(** X19.  Whatever the script writes is the merge of the table into a tree that
    the parser read from the cleaned text of the file, or from that text
    with one closing brace appended; there is no fallback tree. *)
Theorem main_writes_merged_parse (content : str) (written : Tree) :
  main json_loads new_translations content = Ok (Some written) ->
  exists data,
    (json_loads (clean content) = Ok data \/
     json_loads (clean content ++ [rbrace]) = Ok data) /\
    fix_ka_translation.deep_update data new_translations = Ok written.
Proof.
  unfold main, load.
  destruct (json_loads (clean content)) as [data|e] eqn:H1.
  - cbn [bind].
    destruct (fix_ka_translation.deep_update data new_translations) as [r|e] eqn:Hm;
      [|discriminate].
    cbn [bind]. intros [= <-]. exists data. split; [left; reflexivity | exact Hm].
  - destruct e; try discriminate.
    destruct (str_rfind (clean content) rbrace
              <? Z.of_nat (List.length (clean content)) - 5)%Z.
    + destruct (json_loads (clean content ++ [rbrace])) as [data|e] eqn:H2;
        [|discriminate].
      cbn [bind].
      destruct (fix_ka_translation.deep_update data new_translations) as [r|e] eqn:Hm;
        [|discriminate].
      cbn [bind]. intros [= <-]. exists data. split; [right; reflexivity | exact Hm].
    + rewrite H1. discriminate.
Qed.

End ScriptFacts.

Lemma load_parses_first_witness :
  let content := text "{'a': '{'}" in
  only_line_feeds content = true /\ last content 0%N <> 10%N /\
  loads content = Ok (Node [(py "a", Leaf (py "{"))]) /\
  load loads content = Ok (Some (Node [(py "a", Leaf (py "{"))])).
Proof.
  intros content. split; [reflexivity|]. split; [discriminate|]. split; [reflexivity|].
  apply (load_parses_first loads content); [reflexivity | discriminate | reflexivity].
Defined.

Lemma load_no_repair_after_final_brace_witness :
  let content := text "{'a': {'b': 'c'}" in
  clean content = text "{'a': {'b': 'c'" ++ [rbrace] /\
  loads (clean content) = Raise JSONDecodeError /\
  load loads content = Ok None /\
  rehydrate_ka.load_lenient loads content (Node [])
  = Ok (Node [(py "a", Node [(py "b", Leaf (py "c"))])]).
Proof.
  intros content. split; [reflexivity|]. split; [reflexivity|].
  split; [|reflexivity].
  apply (load_no_repair_after_final_brace loads content (text "{'a': {'b': 'c'"));
    reflexivity.
Defined.

Lemma main_writes_merged_parse_witness :
  let content := text "{'a': 'b'" in
  let new_translations := Node [(py "c", Leaf (py "d"))] in
  let written := Node [(py "a", Leaf (py "b")); (py "c", Leaf (py "d"))] in
  main loads new_translations content = Ok (Some written) /\
  exists data,
    (loads (clean content) = Ok data \/ loads (clean content ++ [rbrace]) = Ok data) /\
    fix_ka_translation.deep_update data new_translations = Ok written.
Proof.
  intros content new_translations written. split; [reflexivity|].
  apply (main_writes_merged_parse loads new_translations content written).
  reflexivity.
Defined.

(** * The walk of step 4 of rehydrate_ka.py *)

Lemma translate_raises_RecursionError (frames : nat) :
  forall node e, translate_structure frames node = Raise e -> e = RecursionError.
Proof.
  induction frames as [|n IH]; intros node e; cbn [translate_structure].
  - intros [= <-]. reflexivity.
  - destruct node as [l|items]; [discriminate|].
    destruct (for_each
                (fun (new_node : dict) (kv : str * Tree) =>
                   let (k, v) := kv in
                   x <- translate_structure n v ;; Ok (dict_set new_node k x))
                items []) as [m|e'] eqn:E; cbn [bind]; [discriminate|].
    intros [= <-].
    apply for_each_raise_inv in E as ([k v] & s & _ & E).
    destruct (translate_structure n v) as [x|e2] eqn:Ev; cbn [bind] in E;
      [discriminate|].
    injection E as <-. exact (IH _ _ Ev).
Qed.

Lemma translate_loop (n : nat) (items : list (str * Tree)) :
  forall acc,
    NoDup (keys (acc ++ items)) ->
    (forall k v, In (k, v) items -> translate_structure n v = Ok v) ->
    for_each
      (fun (new_node : dict) (kv : str * Tree) =>
         let (k, v) := kv in
         x <- translate_structure n v ;; Ok (dict_set new_node k x))
      items acc
    = Ok (acc ++ items).
Proof.
  induction items as [|[k v] items IH]; intros acc Hn Hv; cbn [for_each].
  - rewrite app_nil_r. reflexivity.
  - assert (~ In k (keys acc)) as Hk.
    { unfold keys in Hn. rewrite map_app in Hn. cbn in Hn.
      apply NoDup_remove_2 in Hn. intros Hin. apply Hn.
      apply in_or_app. left. exact Hin. }
    rewrite (Hv k v (or_introl eq_refl)). cbn [bind].
    rewrite (dict_set_fresh _ _ _ Hk), IH.
    + rewrite <- app_assoc. reflexivity.
    + rewrite <- app_assoc. exact Hn.
    + intros k0 v0 Hin. apply (Hv k0). right. exact Hin.
Qed.

Lemma translate_enough (frames : nat) :
  forall node, wf_tree node = true -> frames_needed every_value node <= frames ->
               translate_structure frames node = Ok node.
Proof.
  induction frames as [|n IH]; intros node Hwf Hle.
  - pose proof (frames_needed_pos every_value node). lia.
  - destruct node as [l|items]; [reflexivity|].
    apply wf_tree_Node in Hwf as [Hn Hc]. cbn [translate_structure].
    rewrite (translate_loop n items []); [reflexivity | exact Hn |].
    intros k v Hin. apply IH; [exact (Hc k v Hin)|].
    pose proof (frames_needed_In every_value items k v Hin eq_refl). lia.
Qed.

Lemma translate_short (frames : nat) :
  forall node, wf_tree node = true -> frames < frames_needed every_value node ->
               translate_structure frames node = Raise RecursionError.
Proof.
  induction frames as [|n IH]; intros node Hwf Hlt; [reflexivity|].
  destruct node as [l|items]; [cbn [frames_needed] in Hlt; lia|].
  pose proof Hwf as Hwf'. apply wf_tree_Node in Hwf' as [Hn Hc].
  destruct (frames_needed_deepest every_value items n Hlt) as (k & v & Hin & _ & Hv).
  destruct (translate_structure (S n) (Node items)) as [r|e] eqn:E.
  - exfalso. cbn [translate_structure] in E.
    destruct (for_each_raises _ _
                (fun (new_node : dict) (kv : str * Tree) =>
                   let (k, v) := kv in
                   x <- translate_structure n v ;; Ok (dict_set new_node k x))
                items) with (s := @nil (str * Tree)) as [e He].
    + exists (k, v). split; [exact Hin|]. intros s.
      rewrite (IH v (Hc k v Hin) Hv). eexists; reflexivity.
    + rewrite He in E. discriminate E.
  - f_equal. exact (translate_raises_RecursionError _ _ _ E).
Qed.

(** X20.  [translate_structure] returns a copy of the tree it walks: no text is
    replaced, the scraped translations are never looked up.  It does so as
    long as the frames the recursion limit leaves suffice for the nesting of
    the tree, the texts included; with fewer frames it raises
    [RecursionError], and it raises nothing else. *)
Theorem translate_structure_copies (frames : nat) (node : Tree) :
  wf_tree node = true ->
  translate_structure frames node
  = if frames_needed every_value node <=? frames
    then Ok node else Raise RecursionError.
Proof.
  intros Hwf.
  destruct (Nat.leb_spec (frames_needed every_value node) frames) as [Hle|Hlt].
  - exact (translate_enough frames node Hwf Hle).
  - exact (translate_short frames node Hwf Hlt).
Qed.

Lemma translate_structure_copies_witness :
  let node := Node [(py "home", Node [(py "title", Leaf (py "Blog"))]);
                    (py "title", Leaf (py "Home"))] in
  wf_tree node = true /\
  translate_structure 3 node = Ok node /\
  translate_structure 2 node = Raise RecursionError.
Proof.
  intros node. split; [reflexivity|]. split.
  - exact (translate_structure_copies 3 node eq_refl).
  - exact (translate_structure_copies 2 node eq_refl).
Defined.

(** * The scripts update_translations_2.py and update_translations_3.py *)

Lemma assign_loop_get (t : list (str * Tree)) :
  forall b, exists b',
    for_each assign_item t (Node b) = Ok (Node b') /\
    forall k, dict_get b' k = match dict_get (rev t) k with
                              | Some v => Some v
                              | None => dict_get b k
                              end.
Proof.
  induction t as [|[k0 v0] t IH]; intros b.
  - exists b. split; reflexivity.
  - cbn [for_each]. unfold assign_item at 1. cbn [fst snd py_setitem bind].
    destruct (IH (dict_set b k0 v0)) as (b' & H & Hget).
    exists b'. split; [exact H|]. intros k. rewrite Hget. cbn [rev].
    assert (forall l, dict_get (l ++ [(k0, v0)]) k
                      = match dict_get l k with
                        | Some v => Some v
                        | None => if str_eqb k0 k then Some v0 else None
                        end) as Happ.
    { induction l as [|[k1 v1] l IHl]; cbn [app dict_get]; [reflexivity|].
      destruct (str_eqb k1 k); [reflexivity | exact IHl]. }
    rewrite Happ. destruct (dict_get (rev t) k); [reflexivity|].
    destruct (str_eqb k0 k) eqn:E.
    + apply str_eqb_eq in E. subst k0. apply dict_get_set_eq.
    + apply dict_get_set_ne. apply str_eqb_neq. exact E.
Qed.

Lemma dict_get_rev (t : dict) (k : str) :
  NoDup (keys t) -> dict_get (rev t) k = dict_get t k.
Proof.
  intros Hn. destruct (dict_get t k) as [v|] eqn:E.
  - apply In_dict_get.
    + unfold keys. rewrite map_rev. apply NoDup_rev. exact Hn.
    + apply in_rev. rewrite rev_involutive. apply dict_get_In. exact E.
  - apply dict_get_None. apply dict_get_None in E. intros Hin. apply E.
    unfold keys in *. rewrite map_rev in Hin. apply in_rev. exact Hin.
Qed.

(** X21.  [update_json_file] of update_translations_2.py reads the section
    [auction] of the new data and nothing else: without that section the
    tree of the file is written back as it is; with it, every other
    top-level key keeps its value, and a key of the section [auction] of the
    result has the value of the new data when they have one and its old
    value otherwise. *)
Theorem update_translations_2_only_auction (d nk : dict) :
  (dict_get nk (py "auction") = None ->
   update_translations_2.update_json_file (Node d) (Node nk) = Ok (Node d)) /\
  (forall t,
     dict_get nk (py "auction") = Some (Node t) ->
     NoDup (keys t) ->
     section_ok d (py "auction") = true ->
     exists r ra,
       update_translations_2.update_json_file (Node d) (Node nk) = Ok (Node r) /\
       (forall k, k <> py "auction" -> dict_get r k = dict_get d k) /\
       dict_get r (py "auction") = Some (Node ra) /\
       (forall k, dict_get ra k
                  = match dict_get t k with
                    | Some v => Some v
                    | None => dict_get (section_of d (py "auction")) k
                    end)).
Proof.
  unfold update_translations_2.update_json_file. cbn [py_contains py_getitem].
  split.
  - intros ->. reflexivity.
  - intros t Ht Hn Hok. rewrite Ht. cbn [bind py_items].
    destruct (assign_loop_get t (section_of d (py "auction"))) as (ra & Hra & Hget).
    assert (forall m, dict_get m (py "auction") = Some (Node (section_of d (py "auction"))) ->
              (forall k, k <> py "auction" -> dict_get m k = dict_get d k) ->
              exists r,
                for_each
                  (fun (data : Tree) (kv : str * Tree) =>
                     let (key, value) := kv in
                     inner <- py_getitem data (py "auction") ;;
                     inner' <- py_setitem inner key value ;;
                     py_setitem data (py "auction") inner')
                  t (Node m) = Ok (Node r) /\
                (forall k, k <> py "auction" -> dict_get r k = dict_get d k) /\
                dict_get r (py "auction") = Some (Node ra)) as Hloop.
    { intros m Hm Hother. rewrite (update_inner_loop (py "auction") t m _ Hm), Hra.
      cbn [bind]. eexists. split; [reflexivity|]. split.
      - intros k Hk. rewrite dict_get_set_ne by congruence. apply Hother. exact Hk.
      - apply dict_get_set_eq. }
    unfold section_ok in Hok. unfold section_of in *.
    destruct (dict_get d (py "auction")) as [[l|b]|] eqn:Hd; [discriminate| |].
    + cbn [negb bind]. destruct (Hloop d Hd (fun k _ => eq_refl)) as (r & Hr & Ho & Ha).
      exists r, ra. repeat split; try assumption.
      intros k. rewrite Hget, (dict_get_rev _ _ Hn). reflexivity.
    + cbn [negb py_setitem bind].
      destruct (Hloop (dict_set d (py "auction") (Node []))) as (r & Hr & Ho & Ha).
      * apply dict_get_set_eq.
      * intros k Hk. apply dict_get_set_ne. congruence.
      * exists r, ra. repeat split; try assumption.
        intros k. rewrite Hget, (dict_get_rev _ _ Hn). reflexivity.
Qed.

Lemma update_translations_2_only_auction_witness :
  let d := [(py "common", Node [(py "cars", Leaf (py "Cars"))]);
            (py "auction", Node [(py "a", Leaf (py "1")); (py "b", Leaf (py "2"))])] in
  let t := [(py "b", Leaf (py "3")); (py "c", Leaf (py "4"))] in
  let nk := [(py "common", Node [(py "cars", Leaf (py "ignored"))]);
             (py "auction", Node t)] in
  dict_get nk (py "auction") = Some (Node t) /\ NoDup (keys t) /\
  section_ok d (py "auction") = true /\
  update_translations_2.update_json_file (Node d) (Node nk)
  = Ok (Node [(py "common", Node [(py "cars", Leaf (py "Cars"))]);
              (py "auction", Node [(py "a", Leaf (py "1")); (py "b", Leaf (py "3"));
                                   (py "c", Leaf (py "4"))])]) /\
  exists r ra,
    update_translations_2.update_json_file (Node d) (Node nk) = Ok (Node r) /\
    (forall k, k <> py "auction" -> dict_get r k = dict_get d k) /\
    dict_get r (py "auction") = Some (Node ra) /\
    (forall k, dict_get ra k
               = match dict_get t k with
                 | Some v => Some v
                 | None => dict_get (section_of d (py "auction")) k
                 end).
Proof.
  intros d t nk.
  assert (NoDup (keys t)) as Hn by (apply nodup_keys_NoDup; reflexivity).
  split; [reflexivity|]. split; [exact Hn|]. split; [reflexivity|].
  split; [reflexivity|].
  apply (proj2 (update_translations_2_only_auction d nk) t); [reflexivity | exact Hn | reflexivity].
Defined.

Lemma add_missing_keys_get (items : dict) :
  forall b k,
    dict_get (add_missing_keys items b) k
    = match dict_get b k with
      | Some v => Some v
      | None => dict_get items k
      end.
Proof.
  unfold add_missing_keys.
  induction items as [|[k0 v0] items IH]; intros b k; cbn [fold_left fst snd].
  - destruct (dict_get b k); reflexivity.
  - rewrite IH. cbn [dict_get].
    destruct (dict_get b k0) as [w|] eqn:E0.
    + destruct (str_eqb k0 k) eqn:E; [|reflexivity].
      apply str_eqb_eq in E. subst k0. rewrite E0. reflexivity.
    + destruct (str_eqb k0 k) eqn:E.
      * apply str_eqb_eq in E. subst k0. rewrite dict_get_set_eq, E0. reflexivity.
      * rewrite dict_get_set_ne by (apply str_eqb_neq; exact E). reflexivity.
Qed.

Lemma add_inner_loop (section : str) (items : list (str * Tree)) :
  forall m b,
    dict_get m section = Some (Node b) ->
    for_each
      (fun (data : Tree) (kv : str * Tree) =>
         let (key, value) := kv in
         inner <- py_getitem data section ;;
         if negb (py_contains inner key) then
           inner' <- py_setitem inner key value ;;
           py_setitem data section inner'
         else Ok data)
      items (Node m)
    = Ok (Node (dict_set m section (Node (add_missing_keys items b)))).
Proof.
  induction items as [|[k v] items IH]; intros m b Hm.
  - cbn. rewrite (dict_set_same _ _ _ Hm). reflexivity.
  - cbn [for_each py_getitem]. rewrite Hm. cbn [bind py_contains].
    unfold add_missing_keys. cbn [fold_left fst snd].
    destruct (dict_get b k) eqn:Eb; cbn [negb bind py_setitem].
    + apply (IH m b Hm).
    + rewrite (IH _ _ (dict_get_set_eq m section _)), dict_set_set. reflexivity.
Qed.

Lemma add_missing_Node (section : str) (d nk t : dict) :
  dict_get nk section = Some (Node t) ->
  section_ok d section = true ->
  update_translations_3.add_missing section (Node d) (Node nk)
  = Ok (Node (dict_set d section (Node (add_missing_keys t (section_of d section))))).
Proof.
  intros Ht Hok. unfold update_translations_3.add_missing.
  cbn [py_contains py_getitem]. rewrite Ht.
  unfold section_ok in Hok. unfold section_of.
  destruct (dict_get d section) as [[l|b]|] eqn:Hd; [discriminate| |];
    cbn [negb bind py_setitem py_items].
  - apply add_inner_loop. exact Hd.
  - rewrite (add_inner_loop section t _ [] (dict_get_set_eq d section _)).
    rewrite dict_set_set. reflexivity.
Qed.

(** X22.  update_translations_3.py only adds: the run goes through, every
    top-level key besides the two sections keeps its value, and in the
    sections [common] and [auction] of the result a key the file had keeps
    the value of the file, while a key the file did not have gets the value
    of the table. *)
Theorem update_translations_3_adds_only (d nk tc ta : dict) :
  dict_get nk (py "common") = Some (Node tc) ->
  dict_get nk (py "auction") = Some (Node ta) ->
  section_ok d (py "common") = true ->
  section_ok d (py "auction") = true ->
  exists r rc ra,
    update_translations_3.update_translations (Node d) (Node nk) = Ok (Node r) /\
    (forall k, k <> py "common" -> k <> py "auction" -> dict_get r k = dict_get d k) /\
    dict_get r (py "common") = Some (Node rc) /\
    dict_get r (py "auction") = Some (Node ra) /\
    (forall k, dict_get rc k
               = match dict_get (section_of d (py "common")) k with
                 | Some v => Some v
                 | None => dict_get tc k
                 end) /\
    (forall k, dict_get ra k
               = match dict_get (section_of d (py "auction")) k with
                 | Some v => Some v
                 | None => dict_get ta k
                 end).
Proof.
  intros Hc Ha Hokc Hoka.
  assert (py "common" <> py "auction") as Hne by discriminate.
  set (rc := add_missing_keys tc (section_of d (py "common"))).
  set (d1 := dict_set d (py "common") (Node rc)).
  assert (dict_get d1 (py "auction") = dict_get d (py "auction")) as Hd1
      by (apply dict_get_set_ne; exact Hne).
  set (ra := add_missing_keys ta (section_of d (py "auction"))).
  exists (dict_set d1 (py "auction") (Node ra)), rc, ra.
  split.
  - unfold update_translations_3.update_translations.
    rewrite (add_missing_Node _ _ _ _ Hc Hokc). cbn [bind]. fold rc. fold d1.
    rewrite (add_missing_Node (py "auction") d1 nk ta Ha).
    + unfold section_of. rewrite Hd1. reflexivity.
    + unfold section_ok. rewrite Hd1. exact Hoka.
  - split; [|split; [|split; [|split]]].
    + intros k Hk1 Hk2. unfold d1.
      rewrite !dict_get_set_ne by congruence. reflexivity.
    + rewrite dict_get_set_ne by congruence. apply dict_get_set_eq.
    + apply dict_get_set_eq.
    + intros k. apply add_missing_keys_get.
    + intros k. apply add_missing_keys_get.
Qed.

Lemma update_translations_3_adds_only_witness :
  let d := [(py "common", Node [(py "company", Leaf (py "Firm"))]);
            (py "home", Leaf (py "h"))] in
  let tc := [(py "company", Leaf (py "Company"))] in
  let ta := [(py "company_search_placeholder", Leaf (py "e.g."))] in
  let nk := [(py "auction", Node ta); (py "common", Node tc)] in
  update_translations_3.update_translations (Node d) (Node nk)
  = Ok (Node [(py "common", Node [(py "company", Leaf (py "Firm"))]);
              (py "home", Leaf (py "h"));
              (py "auction", Node ta)]) /\
  exists r rc ra,
    update_translations_3.update_translations (Node d) (Node nk) = Ok (Node r) /\
    (forall k, k <> py "common" -> k <> py "auction" -> dict_get r k = dict_get d k) /\
    dict_get r (py "common") = Some (Node rc) /\
    dict_get r (py "auction") = Some (Node ra) /\
    (forall k, dict_get rc k
               = match dict_get (section_of d (py "common")) k with
                 | Some v => Some v
                 | None => dict_get tc k
                 end) /\
    (forall k, dict_get ra k
               = match dict_get (section_of d (py "auction")) k with
                 | Some v => Some v
                 | None => dict_get ta k
                 end).
Proof.
  intros d tc ta nk. split; [reflexivity|].
  apply (update_translations_3_adds_only d nk tc ta); reflexivity.
Defined.

(** * The script update_translations_vehicle.py *)

Section Lens.

(** Loops that change, through [data], the dict bound to [vd], or the value
    bound to [section] in that dict. *)
Variables (vd section : str) (A : Type).
Variables (f body : Tree -> A -> result Tree).

Lemma lens1_loop :
  (forall m X it, dict_get m vd = Some (Node X) ->
     body (Node m) it = x' <- f (Node X) it ;; Ok (Node (dict_set m vd x'))) ->
  (forall X it x', f (Node X) it = Ok x' -> exists X', x' = Node X') ->
  forall items m X,
    dict_get m vd = Some (Node X) ->
    for_each body items (Node m)
    = x' <- for_each f items (Node X) ;; Ok (Node (dict_set m vd x')).
Proof.
  intros Hbody Hnode. induction items as [|it items IH]; intros m X Hm.
  - cbn. rewrite (dict_set_same _ _ _ Hm). reflexivity.
  - cbn [for_each]. rewrite (Hbody _ _ _ Hm).
    destruct (f (Node X) it) as [x'|e] eqn:E; cbn [bind]; [|reflexivity].
    destruct (Hnode _ _ _ E) as [X' ->].
    rewrite (IH _ X' (dict_get_set_eq m vd _)).
    destruct (for_each f items (Node X')); cbn [bind]; [|reflexivity].
    rewrite dict_set_set. reflexivity.
Qed.

Lemma lens2_loop :
  (forall m X cur it,
     dict_get m vd = Some (Node X) -> dict_get X section = Some cur ->
     body (Node m) it
     = r <- f cur it ;; Ok (Node (dict_set m vd (Node (dict_set X section r))))) ->
  forall items m X cur,
    dict_get m vd = Some (Node X) -> dict_get X section = Some cur ->
    for_each body items (Node m)
    = r <- for_each f items cur ;;
      Ok (Node (dict_set m vd (Node (dict_set X section r)))).
Proof.
  intros Hbody. induction items as [|it items IH]; intros m X cur Hm HX.
  - cbn. rewrite (dict_set_same _ _ _ HX), (dict_set_same _ _ _ Hm). reflexivity.
  - cbn [for_each]. rewrite (Hbody _ _ _ _ Hm HX).
    destruct (f cur it) as [r|e]; cbn [bind]; [|reflexivity].
    rewrite (IH _ _ r (dict_get_set_eq m vd _) (dict_get_set_eq X section _)).
    destruct (for_each f items r); cbn [bind]; [|reflexivity].
    rewrite !dict_set_set. reflexivity.
Qed.

End Lens.

Lemma vehicle_section_step (m X : dict) (sc : str * Tree) :
  dict_get m (py "vehicle_details") = Some (Node X) ->
  (let (section, content) := sc in
   details <- py_getitem (Node m) (py "vehicle_details") ;;
   if negb (py_contains details section) then
     details' <- py_setitem details section content ;;
     py_setitem (Node m) (py "vehicle_details") details'
   else
     items <- py_items content ;;
     for_each
       (fun (data : Tree) (kv : str * Tree) =>
          let (key, value) := kv in
          if isinstance_dict value then
            details <- py_getitem data (py "vehicle_details") ;;
            sec <- py_getitem details section ;;
            if negb (py_contains sec key) then
              sec' <- py_setitem sec key value ;;
              details' <- py_setitem details section sec' ;;
              py_setitem data (py "vehicle_details") details'
            else
              sub <- py_items value ;;
              for_each
                (fun (data : Tree) (skv : str * Tree) =>
                   let (k, v) := skv in
                   details <- py_getitem data (py "vehicle_details") ;;
                   sec <- py_getitem details section ;;
                   inner <- py_getitem sec key ;;
                   inner' <- py_setitem inner k v ;;
                   sec' <- py_setitem sec key inner' ;;
                   details' <- py_setitem details section sec' ;;
                   py_setitem data (py "vehicle_details") details')
                sub data
          else
            details <- py_getitem data (py "vehicle_details") ;;
            sec <- py_getitem details section ;;
            sec' <- py_setitem sec key value ;;
            details' <- py_setitem details section sec' ;;
            py_setitem data (py "vehicle_details") details')
       items (Node m))
  = x' <- merge_section (Node X) sc ;;
    Ok (Node (dict_set m (py "vehicle_details") x')).
Proof.
  intros Hm. destruct sc as [section content].
  cbn [py_getitem merge_section]. rewrite Hm. cbn [bind py_contains py_getitem].
  destruct (dict_get X section) as [cur|] eqn:HX; cbn [negb bind py_setitem];
    [|reflexivity].
  unfold update_translations.update_json_file.
  destruct content as [l|items]; [reflexivity|]. cbn [py_items bind].
  rewrite (lens2_loop (py "vehicle_details") section _
             (fun (data : Tree) (kv : str * Tree) =>
                let (key, value) := kv in
                if py_contains data key then
                  if isinstance_dict value then
                    sub_items <- py_items value ;;
                    for_each
                      (fun (data : Tree) (skv : str * Tree) =>
                         let (sub_key, sub_value) := skv in
                         inner <- py_getitem data key ;;
                         inner' <- py_setitem inner sub_key sub_value ;;
                         py_setitem data key inner')
                      sub_items data
                  else py_setitem data key value
                else py_setitem data key value)
             _) with (X := X) (cur := cur); [|  | exact Hm | exact HX].
  - destruct (for_each _ items cur); reflexivity.
  - clear. intros m X cur [key value] Hm HX.
    destruct value as [l|sub]; cbn [isinstance_dict py_getitem].
    + rewrite Hm. cbn [bind py_getitem]. rewrite HX. cbn [bind].
      destruct (py_contains cur key); destruct cur; reflexivity.
    + rewrite Hm. cbn [bind py_getitem]. rewrite HX. cbn [bind py_items].
      destruct (py_contains cur key); cbn [negb].
      * apply (lens2_loop (py "vehicle_details") section); [|exact Hm | exact HX].
        clear. intros m X cur [k v] Hm HX. cbn [py_getitem].
        rewrite Hm. cbn [bind py_getitem]. rewrite HX. cbn [bind].
        destruct cur as [l|c]; [reflexivity|]. cbn [py_getitem].
        destruct (dict_get c key) as [inner|]; cbn [bind]; [|reflexivity].
        destruct inner; reflexivity.
      * destruct cur; reflexivity.
Qed.

Lemma merge_section_stays_Node (X : dict) (sc : str * Tree) (x' : Tree) :
  merge_section (Node X) sc = Ok x' -> exists X', x' = Node X'.
Proof.
  destruct sc as [section content]. cbn [merge_section py_contains py_getitem].
  destruct (dict_get X section) as [cur|]; cbn [negb bind py_setitem].
  - destruct (update_translations.update_json_file cur content); cbn [bind];
      [|discriminate].
    intros [= <-]. eexists; reflexivity.
  - intros [= <-]. eexists; reflexivity.
Qed.

(** X23.  update_translations_vehicle.py overwrites the keys of [common] one by
    one, and merges [vehicle_details] section by section: a section the file
    does not have is bound to the content of the table, a section it has is
    merged as [update_json_file] of update_translations.py merges a whole
    file, one level deep. *)
Theorem vehicle_merges_sections (d nk tc tv : dict) :
  dict_get nk (py "common") = Some (Node tc) ->
  dict_get nk (py "vehicle_details") = Some (Node tv) ->
  NoDup (keys tc) ->
  section_ok d (py "common") = true ->
  section_ok d (py "vehicle_details") = true ->
  exists rc,
    (forall k, dict_get rc k
               = match dict_get tc k with
                 | Some v => Some v
                 | None => dict_get (section_of d (py "common")) k
                 end) /\
    update_translations_vehicle.update_translations (Node d) (Node nk)
    = details <- for_each merge_section tv (Node (section_of d (py "vehicle_details"))) ;;
      Ok (Node (dict_set (dict_set d (py "common") (Node rc))
                         (py "vehicle_details") details)).
Proof.
  intros Hc Hv Hn Hokc Hokv.
  assert (py "common" <> py "vehicle_details") as Hne by discriminate.
  destruct (assign_loop_get tc (section_of d (py "common"))) as (rc & Hrc & Hget).
  exists rc. split.
  { intros k. rewrite Hget, (dict_get_rev _ _ Hn). reflexivity. }
  set (d1 := dict_set d (py "common") (Node rc)).
  assert (dict_get d1 (py "vehicle_details") = dict_get d (py "vehicle_details")) as Hd1
      by (apply dict_get_set_ne; exact Hne).
  unfold update_translations_vehicle.update_translations.
  cbn [py_contains py_getitem]. rewrite Hc. unfold section_ok in Hokc.
  unfold section_of in Hrc.
  destruct (dict_get d (py "common")) as [[l|b]|] eqn:Hdc; [discriminate| |];
    cbn [negb bind py_setitem py_items];
    [ rewrite (update_inner_loop (py "common") tc d _ Hdc), Hrc
    | rewrite (update_inner_loop (py "common") tc _ _ (dict_get_set_eq d _ _)), Hrc;
      cbn [bind]; rewrite dict_set_set ];
    cbn [bind py_contains py_getitem]; fold d1; rewrite Hd1, Hv;
    unfold section_ok in Hokv; unfold section_of;
    (destruct (dict_get d (py "vehicle_details")) as [[l'|X]|] eqn:Hdv;
     [ discriminate
     | cbn [negb bind py_setitem py_items];
       apply (lens1_loop (py "vehicle_details") _ merge_section);
       [ intros m X0 it Hm; apply vehicle_section_step; exact Hm
       | exact merge_section_stays_Node
       | exact Hd1 ]
     | cbn [negb bind py_setitem py_items];
       rewrite (lens1_loop (py "vehicle_details") _ merge_section _
                  (fun m X0 it Hm => vehicle_section_step m X0 it Hm)
                  merge_section_stays_Node tv _ []
                  (dict_get_set_eq d1 (py "vehicle_details") _));
       destruct (for_each merge_section tv (Node [])); cbn [bind]; [|reflexivity];
       rewrite dict_set_set; reflexivity ]).
Qed.

Lemma vehicle_merges_sections_witness :
  let d := [(py "vehicle_details",
             Node [(py "errors", Node [(py "a", Leaf (py "1"));
                                       (py "n", Node [(py "x", Leaf (py "0"))])])])] in
  let tc := [(py "c", Leaf (py "d"))] in
  let tv := [(py "errors", Node [(py "b", Leaf (py "2"));
                                 (py "n", Node [(py "y", Leaf (py "9"))])]);
             (py "new", Node [(py "q", Leaf (py "r"))])] in
  let nk := [(py "common", Node tc); (py "vehicle_details", Node tv)] in
  update_translations_vehicle.update_translations (Node d) (Node nk)
  = Ok (Node [(py "vehicle_details",
               Node [(py "errors", Node [(py "a", Leaf (py "1"));
                                         (py "n", Node [(py "x", Leaf (py "0"));
                                                        (py "y", Leaf (py "9"))]);
                                         (py "b", Leaf (py "2"))]);
                     (py "new", Node [(py "q", Leaf (py "r"))])]);
              (py "common", Node tc)]) /\
  exists rc,
    (forall k, dict_get rc k
               = match dict_get tc k with
                 | Some v => Some v
                 | None => dict_get (section_of d (py "common")) k
                 end) /\
    update_translations_vehicle.update_translations (Node d) (Node nk)
    = details <- for_each merge_section tv (Node (section_of d (py "vehicle_details"))) ;;
      Ok (Node (dict_set (dict_set d (py "common") (Node rc))
                         (py "vehicle_details") details)).
Proof.
  intros d tc tv nk. split; [reflexivity|].
  apply (vehicle_merges_sections d nk tc tv); try reflexivity.
  apply nodup_keys_NoDup. reflexivity.
Defined.
